(** * Two-tier cache of the movie-director API

    A shallow embedding of [src/services/cache.service.ts] (the class
    [CacheService]), of the part of [src/config/nats.ts] it calls and of
    [MovieService.getAllMovies] from [src/services/movie.service.ts],
    together with the properties of the cache that the design document
    states.

    The three collaborators of the cache are modelled as plain data:
    the in-process [NodeCache] as a finite map from keys to JavaScript
    values, the Redis server as a finite map from keys to strings, and the
    NATS connection as the list of callbacks registered on the clear
    subject plus a count of signals still to be delivered.  Asynchronous
    methods run to completion (one method call is one step); failures of
    the network are an explicit input [env] of every call.  An entry
    stays in its tier until it is overwritten or cleared; the end of its
    lifetime is a step of its own, [expire_local]. *)

From Stdlib Require Import ZArith Ascii String.
From stdpp Require Import base option list gmap strings pretty.

Set Warnings "-register-all".

Local Open Scope string_scope.
Local Open Scope Z_scope.

(** ** JavaScript values *)

(** The values a caller can hand to the cache.  Numbers are the
    integer-valued ones; a [Date] is identified by the text its
    [toISOString] method returns; an object is its list of own
    properties in insertion order. *)
Inductive jsval : Type :=
| JUndefined
| JNull
| JBool (b : bool)
| JNum (n : Z)
| JStr (s : string)
| JDate (iso : string)
| JArr (items : list jsval)
| JObj (props : list (string * jsval)).

(** [x !== undefined] *)
Definition is_defined (v : jsval) : bool :=
  match v with JUndefined => false | _ => true end.

(** The truthiness test of [if (x)]: a string is falsy when it is
    empty. *)
Definition truthy_text (s : string) : bool := negb (String.eqb s EmptyString).

Definition truthy (v : jsval) : bool :=
  match v with
  | JUndefined | JNull => false
  | JBool b => b
  | JNum n => negb (n =? 0)
  | JStr s => truthy_text s
  | JDate _ | JArr _ | JObj _ => true
  end.

(** ** The JSON built-ins

    [JSON.parse] and [JSON.stringify] belong to the language, not to the
    repository: the cache is verified against their interface.
    [JSON_parse] returns [None] where [JSON.parse] throws a
    [SyntaxError]; [JSON_stringify] returns [None] where
    [JSON.stringify] returns [undefined].  Two facts about the built-ins
    are part of the interface: the empty text is not JSON, and
    [undefined] has no JSON text. *)
Class JsonCodec : Type := {
  JSON_parse : string -> option jsval;
  JSON_stringify : jsval -> option string;
  JSON_parse_empty : JSON_parse EmptyString = None;
  JSON_stringify_undefined : JSON_stringify JUndefined = None
}.

(** An executable instance for ASCII texts, used to run the cache on
    concrete inputs.  It computes what the built-ins compute on values
    whose numbers are integers below 2^53 in magnitude and whose objects
    have no integer-like keys, and on the texts of such values.  Outside
    of them it departs from the built-ins: it turns down number literals
    with a fraction or an exponent, keeps integers of any size exact, and
    keeps the keys of an object in the order of the text. *)
Module Json.

Definition is_ws (c : ascii) : bool :=
  match N_of_ascii c with
  | 32%N | 9%N | 10%N | 13%N => true
  | _ => false
  end.

Definition digit_of (c : ascii) : option Z :=
  let n := Z.of_N (N_of_ascii c) in
  if (48 <=? n) && (n <=? 57) then Some (n - 48) else None.

Definition hex_of (c : ascii) : option Z :=
  let n := Z.of_N (N_of_ascii c) in
  if (48 <=? n) && (n <=? 57) then Some (n - 48)
  else if (65 <=? n) && (n <=? 70) then Some (n - 55)
  else if (97 <=? n) && (n <=? 102) then Some (n - 87)
  else None.

Definition chr (n : Z) : ascii := ascii_of_N (Z.to_N n).

Fixpoint skip_ws (s : string) : string :=
  match s with
  | String c r => if is_ws c then skip_ws r else s
  | EmptyString => s
  end.

(** *** Printing *)

Definition hex_digit (n : Z) : ascii :=
  if n <? 10 then chr (48 + n) else chr (87 + n).

Definition escape_char (c : ascii) : string :=
  let n := Z.of_N (N_of_ascii c) in
  if n =? 34 then String "\" (String c EmptyString)
  else if n =? 92 then "\\"
  else if n =? 8 then "\b"
  else if n =? 12 then "\f"
  else if n =? 10 then "\n"
  else if n =? 13 then "\r"
  else if n =? 9 then "\t"
  else if n <? 32 then
    "\u00" ++ String (hex_digit (n / 16)) (String (hex_digit (n mod 16)) EmptyString)
  else String c EmptyString.

Fixpoint escape (s : string) : string :=
  match s with
  | EmptyString => EmptyString
  | String c r => escape_char c ++ escape r
  end.

(** The double quote character, and the text that is just a double
    quote. *)
Definition dquote : ascii := chr 34.
Definition dq : string := String dquote EmptyString.

Definition quote (s : string) : string := dq ++ escape s ++ dq.

Fixpoint join (sep : string) (l : list string) : string :=
  match l with
  | [] => EmptyString
  | [x] => x
  | x :: r => x ++ sep ++ join sep r
  end.

(** [stringify v] is [None] where the built-in returns [undefined]:
    at [undefined] itself.  Inside an array [undefined] prints as
    [null]; inside an object a property whose value is [undefined] is
    left out. *)
Fixpoint stringify (v : jsval) : option string :=
  match v with
  | JUndefined => None
  | JNull => Some "null"
  | JBool true => Some "true"
  | JBool false => Some "false"
  | JNum n => Some (pretty n)
  | JStr s => Some (quote s)
  | JDate iso => Some (quote iso)
  | JArr items =>
      Some ("[" ++ join "," (map (fun x => default "null" (stringify x)) items) ++ "]")
  | JObj props =>
      let member (kv : string * jsval) : list string :=
        match stringify (snd kv) with
        | Some t => [quote (fst kv) ++ ":" ++ t]
        | None => []
        end in
      Some ("{" ++ join "," (concat (map member props)) ++ "}")
  end.

(** *** Parsing *)

Fixpoint parse_digits (acc : Z) (s : string) : Z * string :=
  match s with
  | String c r =>
      match digit_of c with
      | Some d => parse_digits (10 * acc + d) r
      | None => (acc, s)
      end
  | EmptyString => (acc, s)
  end.

Definition starts_fraction (s : string) : bool :=
  match s with
  | String c _ =>
      let n := N_of_ascii c in
      (n =? 46)%N || (n =? 101)%N || (n =? 69)%N
  | EmptyString => false
  end.

(** An integer literal: no leading zero, no fraction, no exponent. *)
Definition parse_nat_lit (s : string) : option (Z * string) :=
  match s with
  | String c r =>
      match digit_of c with
      | Some 0 =>
          match r with
          | String c' _ =>
              if digit_of c' is Some _ then None
              else if starts_fraction r then None else Some (0, r)
          | EmptyString => Some (0, r)
          end
      | Some d =>
          let '(n, r') := parse_digits d r in
          if starts_fraction r' then None else Some (n, r')
      | None => None
      end
  | EmptyString => None
  end.

Definition parse_number (s : string) : option (Z * string) :=
  match s with
  | String "-" r =>
      match parse_nat_lit r with
      | Some (n, r') => Some (- n, r')
      | None => None
      end
  | _ => parse_nat_lit s
  end.

(** The characters of a string literal after its opening quote. *)
Fixpoint parse_chars (s : string) : option (string * string) :=
  let continue (c : ascii) (r' : option (string * string)) :=
    match r' with
    | Some (t, rest) => Some (String c t, rest)
    | None => None
    end in
  match s with
  | EmptyString => None
  | String "\" (String e r) =>
      match N_of_ascii e with
      | 34%N => continue dquote (parse_chars r)
      | 92%N => continue e (parse_chars r)
      | 47%N => continue e (parse_chars r)
      | 98%N => continue (chr 8) (parse_chars r)
      | 102%N => continue (chr 12) (parse_chars r)
      | 110%N => continue (chr 10) (parse_chars r)
      | 114%N => continue (chr 13) (parse_chars r)
      | 116%N => continue (chr 9) (parse_chars r)
      | 117%N =>
          match r with
          | String "0" (String "0" (String h (String l r'))) =>
              match hex_of h, hex_of l with
              | Some a, Some b => continue (chr (16 * a + b)) (parse_chars r')
              | _, _ => None
              end
          | _ => None
          end
      | _ => None
      end
  | String c r =>
      if (N_of_ascii c =? 34)%N then Some (EmptyString, r)
      else if (N_of_ascii c =? 92)%N then None
      else if (N_of_ascii c <? 32)%N then None
      else continue c (parse_chars r)
  end.

Definition starts_string (s : string) : option string :=
  match s with
  | String c r => if (N_of_ascii c =? 34)%N then Some r else None
  | EmptyString => None
  end.

(** A later property of the same name replaces the earlier value and
    keeps its place. *)
Fixpoint put_prop (k : string) (v : jsval) (ps : list (string * jsval))
  : list (string * jsval) :=
  match ps with
  | [] => [(k, v)]
  | (k', v') :: r =>
      if String.eqb k k' then (k, v) :: r else (k', v') :: put_prop k v r
  end.

Fixpoint parse_value (fuel : nat) (s : string) : option (jsval * string) :=
  match fuel with
  | O => None
  | S fuel' =>
      match skip_ws s with
      | String "n" (String "u" (String "l" (String "l" r))) => Some (JNull, r)
      | String "t" (String "r" (String "u" (String "e" r))) => Some (JBool true, r)
      | String "f" (String "a" (String "l" (String "s" (String "e" r)))) =>
          Some (JBool false, r)
      | String "[" r =>
          match skip_ws r with
          | String "]" r' => Some (JArr [], r')
          | _ => parse_items fuel' r []
          end
      | String "{" r =>
          match skip_ws r with
          | String "}" r' => Some (JObj [], r')
          | _ => parse_members fuel' r []
          end
      | other =>
          match starts_string other with
          | Some r =>
              match parse_chars r with
              | Some (t, r') => Some (JStr t, r')
              | None => None
              end
          | None =>
              match parse_number other with
              | Some (n, r) => Some (JNum n, r)
              | None => None
              end
          end
      end
  end
with parse_items (fuel : nat) (s : string) (acc : list jsval)
  : option (jsval * string) :=
  match fuel with
  | O => None
  | S fuel' =>
      match parse_value fuel' s with
      | Some (v, r) =>
          match skip_ws r with
          | String "," r' => parse_items fuel' r' (acc ++ [v])
          | String "]" r' => Some (JArr (acc ++ [v]), r')
          | _ => None
          end
      | None => None
      end
  end
with parse_members (fuel : nat) (s : string) (acc : list (string * jsval))
  : option (jsval * string) :=
  match fuel with
  | O => None
  | S fuel' =>
      match starts_string (skip_ws s) with
      | Some r =>
          match parse_chars r with
          | Some (k, r1) =>
              match skip_ws r1 with
              | String ":" r2 =>
                  match parse_value fuel' r2 with
                  | Some (v, r3) =>
                      match skip_ws r3 with
                      | String "," r4 => parse_members fuel' r4 (put_prop k v acc)
                      | String "}" r4 => Some (JObj (put_prop k v acc), r4)
                      | _ => None
                      end
                  | None => None
                  end
              | _ => None
              end
          | None => None
          end
      | None => None
      end
  end.

Definition parse (s : string) : option jsval :=
  match parse_value (2 * String.length s + 2) s with
  | Some (v, r) =>
      match skip_ws r with
      | EmptyString => Some v
      | _ => None
      end
  | None => None
  end.

End Json.

#[export] Instance ascii_json : JsonCodec :=
  {| JSON_parse := Json.parse;
     JSON_stringify := Json.stringify;
     JSON_parse_empty := eq_refl;
     JSON_stringify_undefined := eq_refl |}.


(** ** Glob patterns of the Redis [KEYS] command

    [redisClient.keys(pattern)] asks the server for the keys that match
    a glob-style pattern: [*] matches any run of characters, [?] one
    character, [[...]] one character of a class (negated by a leading
    [^], with ranges [a-z]), and a backslash takes the next character
    literally. *)
Module Glob.

Inductive item : Type :=
| One (c : ascii)
| Range (lo hi : ascii).

Inductive token : Type :=
| Star
| Any
| Class (negated : bool) (items : list item)
| Lit (c : ascii).

Definition code (c : ascii) : N := N_of_ascii c.

Fixpoint tokens (p : string) : list token :=
  match p with
  | EmptyString => []
  | String "*" r => Star :: tokens r
  | String "?" r => Any :: tokens r
  | String "[" r =>
      match r with
      | String "^" r' => class true [] r'
      | _ => class false [] r
      end
  | String "\" (String c r) => Lit c :: tokens r
  | String c r => Lit c :: tokens r
  end
with class (negated : bool) (acc : list item) (p : string) : list token :=
  match p with
  | EmptyString => [Class negated acc]
  | String "\" (String c r) => class negated (acc ++ [One c]) r
  | String "]" r => Class negated acc :: tokens r
  | String a (String "-" (String b r)) =>
      let lo := if (code a <=? code b)%N then a else b in
      let hi := if (code a <=? code b)%N then b else a in
      class negated (acc ++ [Range lo hi]) r
  | String a r => class negated (acc ++ [One a]) r
  end.

Definition item_matches (c : ascii) (i : item) : bool :=
  match i with
  | One a => Ascii.eqb a c
  | Range lo hi => ((code lo <=? code c) && (code c <=? code hi))%N
  end.

Fixpoint matches (ts : list token) (s : string) : bool :=
  match ts with
  | [] => match s with EmptyString => true | _ => false end
  | Star :: ts' =>
      (fix star (s : string) : bool :=
         matches ts' s ||
         match s with
         | EmptyString => false
         | String _ s' => star s'
         end) s
  | Any :: ts' =>
      match s with
      | EmptyString => false
      | String _ s' => matches ts' s'
      end
  | Class negated items :: ts' =>
      match s with
      | EmptyString => false
      | String c s' =>
          xorb negated (existsb (item_matches c) items) && matches ts' s'
      end
  | Lit a :: ts' =>
      match s with
      | EmptyString => false
      | String c s' => Ascii.eqb a c && matches ts' s'
      end
  end.

Definition glob (pattern key : string) : bool :=
  matches (tokens pattern) key.

(** A namespace is plain when none of its characters is special in a
    pattern. *)
Definition special (c : ascii) : bool :=
  match c with
  | "*"%char | "?"%char | "["%char | "\"%char => true
  | _ => false
  end.

Fixpoint plain (s : string) : bool :=
  match s with
  | EmptyString => true
  | String c r => negb (special c) && plain r
  end.

End Glob.


(** ** The process and its collaborators *)

(** An object of class [CacheService]: its two fields. *)
Record CacheService : Type := mkCacheService {
  keyPrefix : string;
  natsSubscribed : bool
}.

(** Every call the cache makes on a collaborator, in program order. *)
Inductive event : Type :=
| LocalGet (key : string)
| LocalSet (key : string) (value : jsval)
| LocalFlushAll
| RedisGet (key : string)
| RedisSetex (key : string) (ttl : Z) (value : string)
| RedisKeys (pattern : string)
| RedisDel (keys : list string)
| NatsSubscribe (subject : string)
| NatsPublish (subject : string) (payload : list N)
| ConsoleError (message : string).

(** The state of one running process and of the servers it talks to.
    Objects live in [heap] and are referred to by their index, so that
    two references to one object are the same number. *)
Record state : Type := mkState {
  instance : option nat;             (* static CacheService.instance *)
  heap : list CacheService;
  CACHE_TTL : Z;                     (* parseInt(process.env.CACHE_TTL || 3600) *)
  localCache : gmap string jsval;    (* the contents of the NodeCache *)
  redis : gmap string string;        (* the contents of the Redis server *)
  natsClient : bool;                 (* config/nats.ts: natsClient is set *)
  subscriptions : list nat;          (* callbacks on the clear subject, by the [this] they close over *)
  inflight : nat;                    (* clear signals published and not yet delivered *)
  log : list event
}.

(** What the network does during one call: which commands fail. *)
Record env : Type := mkEnv {
  redisGetFails : bool;
  redisSetexFails : bool;
  redisKeysFails : bool;
  redisDelFails : bool;
  natsSubscribeFails : bool;
  natsPublishFails : bool
}.

Definition healthy : env := mkEnv false false false false false false.

Inductive error : Type :=
| RedisConnectionError     (* the Redis server cannot be reached *)
| RedisReplyError          (* the Redis server rejects the command *)
| NatsNotInitialized       (* Error "NATS client not initialized" *)
| NatsConnectionError      (* the NATS connection is closed or broken *)
| SyntaxError              (* thrown by JSON.parse, by new RegExp *)
| TypeError.               (* a method called on what is not an object *)

Inductive outcome (A : Type) : Type :=
| Return (a : A)
| Throw (e : error).
Arguments Return {A} a.
Arguments Throw {A} e.

(** A computation reads the network conditions, changes the state and
    either returns or throws. *)
Definition M (A : Type) : Type := env -> state -> outcome A * state.

Definition ret {A : Type} (a : A) : M A := fun _ st => (Return a, st).

Definition throw {A : Type} (e : error) : M A := fun _ st => (Throw e, st).

Definition bind {A B : Type} (m : M A) (k : A -> M B) : M B :=
  fun e st =>
    match m e st with
    | (Return a, st') => k a e st'
    | (Throw err, st') => (Throw err, st')
    end.

(** [try { m } catch (error) { h error }] *)
Definition try_catch {A : Type} (m : M A) (h : error -> M A) : M A :=
  fun e st =>
    match m e st with
    | (Return a, st') => (Return a, st')
    | (Throw err, st') => h err e st'
    end.

Declare Scope cache_scope.
Delimit Scope cache_scope with cache.
Notation "'let*' x ':=' m 'in' k" := (bind m (fun x => k))
  (at level 10, x name, m at level 100, k at level 200) : cache_scope.
Notation "m ';;' k" := (bind m (fun _ => k))
  (at level 100, k at level 200, right associativity) : cache_scope.
Local Open Scope cache_scope.

(** *** State updates *)

Definition emit (ev : event) (st : state) : state :=
  mkState (instance st) (heap st) (CACHE_TTL st) (localCache st) (redis st)
    (natsClient st) (subscriptions st) (inflight st) (log st ++ [ev]).

Definition with_localCache (c : gmap string jsval) (st : state) : state :=
  mkState (instance st) (heap st) (CACHE_TTL st) c (redis st)
    (natsClient st) (subscriptions st) (inflight st) (log st).

Definition with_redis (r : gmap string string) (st : state) : state :=
  mkState (instance st) (heap st) (CACHE_TTL st) (localCache st) r
    (natsClient st) (subscriptions st) (inflight st) (log st).

Definition with_heap (h : list CacheService) (st : state) : state :=
  mkState (instance st) h (CACHE_TTL st) (localCache st) (redis st)
    (natsClient st) (subscriptions st) (inflight st) (log st).

Definition with_instance (i : option nat) (st : state) : state :=
  mkState i (heap st) (CACHE_TTL st) (localCache st) (redis st)
    (natsClient st) (subscriptions st) (inflight st) (log st).

Definition with_subscriptions (l : list nat) (st : state) : state :=
  mkState (instance st) (heap st) (CACHE_TTL st) (localCache st) (redis st)
    (natsClient st) l (inflight st) (log st).

Definition with_inflight (n : nat) (st : state) : state :=
  mkState (instance st) (heap st) (CACHE_TTL st) (localCache st) (redis st)
    (natsClient st) (subscriptions st) n (log st).

(** *** console *)

Definition console_error (message : string) : M unit :=
  fun _ st => (Return tt, emit (ConsoleError message) st).

(** *** NodeCache: [localCache] *)

(** What the NodeCache hands out for a stored value: the value, or
    [null] when the stored value is [undefined]. *)
Definition unwrap (v : jsval) : jsval :=
  match v with
  | JUndefined => JNull
  | _ => v
  end.

(** [localCache.get(key)]: [undefined] when there is no entry under the
    key, and what the entry unwraps to otherwise. *)
Definition localCache_get (key : string) : M jsval :=
  fun _ st =>
    (Return (from_option unwrap JUndefined (localCache st !! key)),
     emit (LocalGet key) st).

Definition localCache_set (key : string) (value : jsval) : M unit :=
  fun _ st =>
    (Return tt,
     with_localCache (<[key := value]> (localCache st)) (emit (LocalSet key value) st)).

Definition localCache_flushAll : M unit :=
  fun _ st => (Return tt, with_localCache ∅ (emit LocalFlushAll st)).

(** *** ioredis: [redisClient] *)

(** [redisClient.get(key)] resolves to the stored string, or to [null]
    ([None]) when the key does not exist. *)
Definition redisClient_get (key : string) : M (option string) :=
  fun e st =>
    let st := emit (RedisGet key) st in
    if redisGetFails e then (Throw RedisConnectionError, st)
    else (Return (redis st !! key), st).

(** ioredis sends an argument that is [undefined] as the empty string. *)
Definition toArg (a : option string) : string := default EmptyString a.

(** [redisClient.setex(key, seconds, value)]; the server rejects a
    lifetime that is not positive. *)
Definition redisClient_setex (key : string) (seconds : Z) (value : option string)
  : M unit :=
  fun e st =>
    let st := emit (RedisSetex key seconds (toArg value)) st in
    if redisSetexFails e then (Throw RedisConnectionError, st)
    else if (seconds <=? 0)%Z then (Throw RedisReplyError, st)
    else (Return tt, with_redis (<[key := toArg value]> (redis st)) st).

Definition matching_keys (pattern : string) (r : gmap string string) : list string :=
  filter (fun k => Glob.glob pattern k = true) (elements (dom r)).

Definition redisClient_keys (pattern : string) : M (list string) :=
  fun e st =>
    let st := emit (RedisKeys pattern) st in
    if redisKeysFails e then (Throw RedisConnectionError, st)
    else (Return (matching_keys pattern (redis st)), st).

Definition delete_keys (keys : list string) (r : gmap string string)
  : gmap string string :=
  foldr delete r keys.

Definition redisClient_del (keys : list string) : M unit :=
  fun e st =>
    let st := emit (RedisDel keys) st in
    if redisDelFails e then (Throw RedisConnectionError, st)
    else (Return tt, with_redis (delete_keys keys (redis st)) st).

(** *** config/nats.ts *)

Definition EVENTS_MOVIE_CACHE_CLEAR : string := "movie.cache.clear".

Definition getNatsClient : M unit :=
  fun _ st =>
    if natsClient st then (Return tt, st) else (Throw NatsNotInitialized, st).

(** [nats.subscribe(subject, { callback })], where the callback closes
    over [this]. *)
Definition nats_subscribe (subject : string) (this : nat) : M unit :=
  fun e st =>
    let st := emit (NatsSubscribe subject) st in
    if natsSubscribeFails e then (Throw NatsConnectionError, st)
    else (Return tt, with_subscriptions (subscriptions st ++ [this]) st).

Definition nats_publish (subject : string) (payload : list N) : M unit :=
  fun e st =>
    let st := emit (NatsPublish subject payload) st in
    if natsPublishFails e then (Throw NatsConnectionError, st)
    else (Return tt, with_inflight (S (inflight st)) st).

(** ** services/cache.service.ts: class [CacheService] *)

Section CacheService.

Context `{codec : JsonCodec}.

(** Reading a field of [this]. *)
Definition deref (this : nat) : M CacheService :=
  fun _ st =>
    match heap st !! this with
    | Some o => (Return o, st)
    | None => (Throw TypeError, st)
    end.

(** [new CacheService(keyPrefix)] followed by the assignment to the
    static field, when the field is still unset. *)
Definition getInstance (prefix : string) (st : state) : nat * state :=
  match instance st with
  | None =>
      let r := length (heap st) in
      (r, with_instance (Some r) (with_heap (heap st ++ [mkCacheService prefix false]) st))
  | Some r => (r, st)
  end.

Definition getKey (this : nat) (key : string) : M string :=
  let* o := deref this in
  ret (keyPrefix o +:+ ":" +:+ key).

(** [this.natsSubscribed = true] *)
Definition set_natsSubscribed (this : nat) (b : bool) : M unit :=
  fun _ st =>
    match heap st !! this with
    | Some o =>
        (Return tt, with_heap (<[this := mkCacheService (keyPrefix o) b]> (heap st)) st)
    | None => (Throw TypeError, st)
    end.

Definition setupNatsSubscription (this : nat) : M unit :=
  let* o := deref this in
  if natsSubscribed o then ret tt
  else
    try_catch
      (getNatsClient ;;
       nats_subscribe EVENTS_MOVIE_CACHE_CLEAR this ;;
       set_natsSubscribed this true)
      (fun _ => console_error "Failed to setup NATS subscription:").

(** [redisData] is a string or [null]; [if (redisData)] takes the
    string when it is not empty. *)
Definition get (this : nat) (key : string) : M jsval :=
  setupNatsSubscription this ;;
  let* fullKey := getKey this key in
  let* localData := localCache_get fullKey in
  if is_defined localData then ret localData
  else
    let* redisData := redisClient_get fullKey in
    match redisData with
    | Some text =>
        if truthy_text text then
          match JSON_parse text with
          | Some parsedData =>
              localCache_set fullKey parsedData ;;
              ret parsedData
          | None => throw SyntaxError
          end
        else ret JNull
    | None => ret JNull
    end.

Definition set (this : nat) (key : string) (data : jsval) : M unit :=
  setupNatsSubscription this ;;
  let* fullKey := getKey this key in
  let* ttl := (fun _ st => (Return (CACHE_TTL st), st)) in
  redisClient_setex fullKey ttl (JSON_stringify data) ;;
  localCache_set fullKey data.

Definition clearAllCaches (this : nat) : M unit :=
  try_catch
    (localCache_flushAll ;;
     let* o := deref this in
     let pattern := keyPrefix o +:+ ":*" in
     let* keys := redisClient_keys pattern in
     if (0 <? length keys)%nat then redisClient_del keys else ret tt)
    (fun _ => console_error "Error clearing caches:").

Definition publishCacheClear (this : nat) : M unit :=
  setupNatsSubscription this ;;
  try_catch
    (getNatsClient ;;
     nats_publish EVENTS_MOVIE_CACHE_CLEAR [])
    (fun _ => console_error "Error publishing cache clear event:").

(** *** The bus delivers a clear signal

    Each registered callback is [() => { this.clearAllCaches(); }]. *)
Fixpoint run_callbacks (subscribers : list nat) : M unit :=
  match subscribers with
  | [] => ret tt
  | this :: rest => clearAllCaches this ;; run_callbacks rest
  end.

Definition deliver : M unit :=
  fun e st =>
    match inflight st with
    | O => (Return tt, st)
    | S n => run_callbacks (subscriptions st) e (with_inflight n st)
    end.

(** *** The lifetime of an entry ends

    The NodeCache drops an entry when its time to live is over. *)
Definition expire_local (fullKey : string) (st : state) : state :=
  with_localCache (delete fullKey (localCache st)) st.

(** ** services/movie.service.ts: [MovieService.getAllMovies]

    [cacheService] is the reference the module obtained from
    [CacheService.getInstance]; [found] is what the query on the
    primary store resolves to. *)
Definition getAllMovies (cacheService : nat) (found : jsval) : M jsval :=
  let cacheKey := "all-movies" in
  let* cached :=
    try_catch
      (let* cachedMovies := get cacheService cacheKey in
       if truthy cachedMovies then ret (Some cachedMovies) else ret None)
      (fun _ => console_error "Error getting from cache:" ;; ret None) in
  match cached with
  | Some cachedMovies => ret cachedMovies
  | None =>
      let movies := found in
      try_catch
        (set cacheService cacheKey movies)
        (fun _ => console_error "Error setting cache:") ;;
      ret movies
  end.

(** *** Sequences of calls *)

(** [getInstance] called once for each prefix of a list, in order;
    the references the calls return and the final state. *)
Fixpoint getInstances (prefixes : list string) (st : state) : list nat * state :=
  match prefixes with
  | [] => ([], st)
  | p :: ps =>
      let '(r, st1) := getInstance p st in
      let '(rs, st2) := getInstances ps st1 in
      (r :: rs, st2)
  end.

(** What can happen to the cache of a process: a call of one of its
    four methods, or the arrival of a clear signal. *)
Inductive call : Type :=
| CallGet (key : string)
| CallSet (key : string) (data : jsval)
| CallPublishCacheClear
| CallClearAllCaches
| Delivery.

(** The calls that start with [setupNatsSubscription]. *)
Definition subscribing (c : call) : bool :=
  match c with
  | CallGet _ | CallSet _ _ | CallPublishCacheClear => true
  | CallClearAllCaches | Delivery => false
  end.

Definition perform (this : nat) (c : call) (e : env) (st : state) : state :=
  match c with
  | CallGet key => (get this key e st).2
  | CallSet key data => (set this key data e st).2
  | CallPublishCacheClear => (publishCacheClear this e st).2
  | CallClearAllCaches => (clearAllCaches this e st).2
  | Delivery => (deliver e st).2
  end.

(** One call after the other, each under its own network
    conditions. *)
Fixpoint run (this : nat) (calls : list (call * env)) (st : state) : state :=
  match calls with
  | [] => st
  | (c, e) :: rest => run this rest (perform this c e st)
  end.

End CacheService.

(** The state of a process that has just started, next to an empty
    Redis server; [nats] tells whether the NATS client is connected. *)
Definition fresh (nats : bool) : state :=
  mkState None [] 3600 ∅ ∅ nats [] 0 [].

(** The calls on the two tiers among the logged events. *)
Definition is_tier_call (ev : event) : bool :=
  match ev with
  | LocalGet _ | LocalSet _ _ | LocalFlushAll
  | RedisGet _ | RedisSetex _ _ _ | RedisKeys _ | RedisDel _ => true
  | NatsSubscribe _ | NatsPublish _ _ | ConsoleError _ => false
  end.

Definition tier_calls (st : state) : list event :=
  List.filter is_tier_call (log st).

(** The calls of [nats.subscribe] made so far. *)
Definition is_subscribe_call (ev : event) : bool :=
  match ev with NatsSubscribe _ => true | _ => false end.

Definition subscribe_calls (st : state) : nat :=
  length (List.filter is_subscribe_call (log st)).

(** The local tier misses a key when it has no entry under it: then,
    and only then, [localCache.get] returns [undefined]. *)
Definition local_miss (st : state) (fullKey : string) : Prop :=
  localCache st !! fullKey = None.


(** The keys of a namespace: the prefix, a colon, a logical key. *)
Definition in_namespace (prefix fullKey : string) : Prop :=
  exists key, fullKey = prefix +:+ ":" +:+ key.

(** * Properties *)

(** ** Patterns built from a plain namespace *)

Lemma tokens_plain_char (a : ascii) (r : string) :
  Glob.special a = false ->
  Glob.tokens (String a r) = Glob.Lit a :: Glob.tokens r.
Proof.
  destruct a as [[] [] [] [] [] [] [] []]; simpl; try discriminate; reflexivity.
Qed.

Lemma matches_star_end (s : string) : Glob.matches [Glob.Star] s = true.
Proof.
  induction s as [|c s IH]; [reflexivity|].
  simpl in *. exact IH.
Qed.

(** For a namespace without special characters the pattern
    [namespace:*] matches exactly the keys of the namespace. *)
Lemma glob_plain_namespace (prefix fullKey : string) :
  Glob.plain prefix = true ->
  Glob.glob (prefix +:+ ":*") fullKey = true <-> in_namespace prefix fullKey.
Proof.
  unfold Glob.glob, in_namespace.
  revert fullKey. induction prefix as [|a p IH]; intros fullKey Hplain.
  - change (Glob.tokens (EmptyString +:+ ":*"))
      with [Glob.Lit ":"%char; Glob.Star].
    destruct fullKey as [|c s].
    + split; [discriminate|]. intros (key & Hk). discriminate.
    + change (Glob.matches [Glob.Lit ":"%char; Glob.Star] (String c s))
        with (Ascii.eqb ":" c && Glob.matches [Glob.Star] s).
      rewrite matches_star_end, andb_true_r. split.
      * intros Hc. apply Ascii.eqb_eq in Hc as <-. by exists s.
      * intros (key & [= -> ->]). reflexivity.
  - simpl in Hplain. apply andb_true_iff in Hplain as (Ha & Hp).
    apply negb_true_iff in Ha.
    change (String a p +:+ ":*") with (String a (p +:+ ":*")).
    rewrite tokens_plain_char by done.
    destruct fullKey as [|c s].
    + split; [discriminate|]. by intros (key & Hk).
    + cbn [Glob.matches]. rewrite andb_true_iff, Ascii.eqb_eq, (IH s Hp).
      split.
      * intros (-> & key & ->). by exists key.
      * intros (key & [= -> ->]). eauto.
Qed.

Section Facts.

Context `{codec : JsonCodec}.

Implicit Types (this : nat) (o : CacheService) (st : state) (e : env).

Lemma tier_calls_emit st ev :
  tier_calls (emit ev st) =
  (tier_calls st ++ if is_tier_call ev then [ev] else [])%list.
Proof.
  unfold tier_calls, emit; simpl.
  rewrite List.filter_app; simpl. by destruct (is_tier_call ev).
Qed.

(** ** The lazy subscription *)

(** The four ways [setupNatsSubscription] can go. *)
Lemma setup_subscribed this o e st :
  heap st !! this = Some o -> natsSubscribed o = true ->
  setupNatsSubscription this e st = (Return tt, st).
Proof.
  intros Hh Hs. unfold setupNatsSubscription, bind, deref.
  by rewrite Hh, Hs.
Qed.

Lemma setup_no_client this o e st :
  heap st !! this = Some o -> natsSubscribed o = false ->
  natsClient st = false ->
  setupNatsSubscription this e st =
  (Return tt, emit (ConsoleError "Failed to setup NATS subscription:") st).
Proof.
  intros Hh Hs Hc.
  unfold setupNatsSubscription, bind, deref, try_catch, getNatsClient.
  by rewrite Hh, Hs, Hc.
Qed.

Lemma setup_refused this o e st :
  heap st !! this = Some o -> natsSubscribed o = false ->
  natsClient st = true -> natsSubscribeFails e = true ->
  setupNatsSubscription this e st =
  (Return tt,
   emit (ConsoleError "Failed to setup NATS subscription:")
     (emit (NatsSubscribe EVENTS_MOVIE_CACHE_CLEAR) st)).
Proof.
  intros Hh Hs Hc Hf.
  unfold setupNatsSubscription, bind, deref, try_catch, getNatsClient,
    nats_subscribe.
  by rewrite Hh, Hs, Hc, Hf.
Qed.

Lemma setup_registers this o e st :
  heap st !! this = Some o -> natsSubscribed o = false ->
  natsClient st = true -> natsSubscribeFails e = false ->
  setupNatsSubscription this e st =
  (Return tt,
   with_heap (<[this := mkCacheService (keyPrefix o) true]> (heap st))
     (with_subscriptions (subscriptions st ++ [this])
        (emit (NatsSubscribe EVENTS_MOVIE_CACHE_CLEAR) st))).
Proof.
  intros Hh Hs Hc Hf.
  unfold setupNatsSubscription, bind, deref, try_catch, getNatsClient,
    nats_subscribe, set_natsSubscribed.
  rewrite Hh, Hs, Hc, Hf. simpl. by rewrite Hh.
Qed.

(** What every run of [setupNatsSubscription] has in common: it
    returns, keeps the key prefix of [this], and leaves both tiers
    alone. *)
Lemma setup_frame this o e st :
  heap st !! this = Some o ->
  exists st1 b,
    setupNatsSubscription this e st = (Return tt, st1) /\
    heap st1 !! this = Some (mkCacheService (keyPrefix o) b) /\
    localCache st1 = localCache st /\
    redis st1 = redis st /\
    CACHE_TTL st1 = CACHE_TTL st /\
    natsClient st1 = natsClient st /\
    inflight st1 = inflight st /\
    instance st1 = instance st /\
    tier_calls st1 = tier_calls st.
Proof.
  intros Hh.
  destruct o as [p s]; simpl.
  destruct s.
  - exists st, true. by rewrite (setup_subscribed _ _ _ _ Hh eq_refl).
  - destruct (natsClient st) eqn:Hc; [destruct (natsSubscribeFails e) eqn:Hf|].
    + eexists _, false. rewrite (setup_refused _ _ _ _ Hh eq_refl Hc Hf).
      split; [done|]. unfold tier_calls; simpl.
      rewrite !List.filter_app; simpl. by rewrite !app_nil_r.
    + eexists _, true. rewrite (setup_registers _ _ _ _ Hh eq_refl Hc Hf).
      split; [done|]. unfold tier_calls; simpl.
      rewrite list_lookup_insert_eq by (by eapply lookup_lt_Some).
      rewrite List.filter_app; simpl. by rewrite app_nil_r.
    + eexists _, false. rewrite (setup_no_client _ _ _ _ Hh eq_refl Hc).
      split; [done|]. unfold tier_calls; simpl.
      rewrite !List.filter_app; simpl. by rewrite !app_nil_r.
Qed.

(** ** [get] *)

(** [get] after its subscription step, as one case analysis on what
    the tiers hold. *)
Definition get_body (fullKey : string) : M jsval :=
  let* localData := localCache_get fullKey in
  if is_defined localData then ret localData
  else
    let* redisData := redisClient_get fullKey in
    match redisData with
    | Some text =>
        if truthy_text text then
          match JSON_parse text with
          | Some parsedData =>
              localCache_set fullKey parsedData ;;
              ret parsedData
          | None => throw SyntaxError
          end
        else ret JNull
    | None => ret JNull
    end.

Lemma get_unfold this o key e st :
  heap st !! this = Some o ->
  exists st1 b,
    setupNatsSubscription this e st = (Return tt, st1) /\
    heap st1 !! this = Some (mkCacheService (keyPrefix o) b) /\
    localCache st1 = localCache st /\
    redis st1 = redis st /\
    tier_calls st1 = tier_calls st /\
    get this key e st = get_body (keyPrefix o +:+ ":" +:+ key) e st1.
Proof.
  intros Hh.
  destruct (setup_frame this o e st Hh)
    as (st1 & b & Hsetup & Hh1 & Hl & Hr & _ & _ & _ & _ & Ht).
  exists st1, b. repeat split; try done.
  unfold get, bind at 1. rewrite Hsetup.
  unfold bind at 1. unfold getKey, bind at 1. unfold deref. rewrite Hh1.
  reflexivity.
Qed.

Lemma get_body_hit fullKey v e st :
  localCache st !! fullKey = Some v -> v <> JUndefined ->
  get_body fullKey e st = (Return v, emit (LocalGet fullKey) st).
Proof.
  intros Hl Hv. unfold get_body, bind, localCache_get. rewrite Hl. simpl.
  by destruct v.
Qed.

Lemma get_body_fallback fullKey text v e st :
  local_miss st fullKey -> redisGetFails e = false ->
  redis st !! fullKey = Some text -> JSON_parse text = Some v ->
  get_body fullKey e st =
  (Return v,
   with_localCache (<[fullKey := v]> (localCache st))
     (emit (LocalSet fullKey v) (emit (RedisGet fullKey) (emit (LocalGet fullKey) st)))).
Proof.
  intros Hl Hf Hr Hp. unfold local_miss in Hl.
  assert (Hne : truthy_text text = true).
  { destruct text; [|done]. by rewrite JSON_parse_empty in Hp. }
  unfold get_body, bind, localCache_get, redisClient_get. rewrite Hl. simpl.
  rewrite Hf, Hr. simpl. rewrite Hne. simpl. by rewrite Hp.
Qed.

Lemma get_body_miss fullKey e st :
  local_miss st fullKey -> redisGetFails e = false ->
  redis st !! fullKey = None ->
  get_body fullKey e st =
  (Return JNull, emit (RedisGet fullKey) (emit (LocalGet fullKey) st)).
Proof.
  intros Hl Hf Hr. unfold local_miss in Hl.
  unfold get_body, bind, localCache_get, redisClient_get. rewrite Hl. simpl.
  by rewrite Hf, Hr.
Qed.

Lemma get_body_empty fullKey e st :
  local_miss st fullKey -> redisGetFails e = false ->
  redis st !! fullKey = Some EmptyString ->
  get_body fullKey e st =
  (Return JNull, emit (RedisGet fullKey) (emit (LocalGet fullKey) st)).
Proof.
  intros Hl Hf Hr. unfold local_miss in Hl.
  unfold get_body, bind, localCache_get, redisClient_get. rewrite Hl. simpl.
  by rewrite Hf, Hr.
Qed.

Lemma get_body_corrupt fullKey text e st :
  local_miss st fullKey -> redisGetFails e = false ->
  redis st !! fullKey = Some text -> text <> EmptyString ->
  JSON_parse text = None ->
  get_body fullKey e st =
  (Throw SyntaxError, emit (RedisGet fullKey) (emit (LocalGet fullKey) st)).
Proof.
  intros Hl Hf Hr Hne Hp. unfold local_miss in Hl.
  assert (Hne' : truthy_text text = true) by (by destruct text).
  unfold get_body, bind, localCache_get, redisClient_get. rewrite Hl. simpl.
  rewrite Hf, Hr. simpl. rewrite Hne'. simpl. by rewrite Hp.
Qed.

Lemma get_body_unreachable fullKey e st :
  local_miss st fullKey -> redisGetFails e = true ->
  get_body fullKey e st =
  (Throw RedisConnectionError,
   emit (RedisGet fullKey) (emit (LocalGet fullKey) st)).
Proof.
  intros Hl Hf. unfold local_miss in Hl.
  unfold get_body, bind, localCache_get, redisClient_get. rewrite Hl. simpl.
  by rewrite Hf.
Qed.

Lemma local_miss_setup st st1 fullKey :
  localCache st1 = localCache st -> local_miss st fullKey -> local_miss st1 fullKey.
Proof. unfold local_miss. by intros ->. Qed.

Ltac tier_log :=
  unfold tier_calls; simpl; rewrite ?List.filter_app; simpl;
  rewrite <- ?app_assoc; simpl.

(** The three ways a [get] that Redis answers can go. *)
Lemma get_hit this o key v e st :
  heap st !! this = Some o ->
  let fullKey := keyPrefix o +:+ ":" +:+ key in
  let r := get this key e st in
  localCache st !! fullKey = Some v -> v <> JUndefined ->
  r.1 = Return v /\
  tier_calls r.2 = (tier_calls st ++ [LocalGet fullKey])%list /\
  localCache r.2 = localCache st /\ redis r.2 = redis st.
Proof.
  intros Hh fullKey r Hv Hdef.
  destruct (get_unfold this o key e st Hh)
    as (st1 & b & _ & _ & Hl & Hr & Ht & Hget).
  subst r. rewrite Hget. fold fullKey.
  rewrite (get_body_hit fullKey v e st1) by (by rewrite ?Hl).
  simpl. repeat split; try done.
  tier_log. fold (tier_calls st1). by rewrite Ht.
Qed.

Lemma get_fallback this o key text v e st :
  heap st !! this = Some o ->
  let fullKey := keyPrefix o +:+ ":" +:+ key in
  let r := get this key e st in
  local_miss st fullKey -> redisGetFails e = false ->
  redis st !! fullKey = Some text -> JSON_parse text = Some v ->
  r.1 = Return v /\
  tier_calls r.2 =
    (tier_calls st ++ [LocalGet fullKey; RedisGet fullKey; LocalSet fullKey v])%list /\
  localCache r.2 = <[fullKey := v]> (localCache st) /\ redis r.2 = redis st.
Proof.
  intros Hh fullKey r Hmiss Hf Hred Hp.
  destruct (get_unfold this o key e st Hh)
    as (st1 & b & _ & _ & Hl & Hr & Ht & Hget).
  subst r. rewrite Hget. fold fullKey.
  rewrite (get_body_fallback fullKey text v e st1)
    by (by rewrite ?Hr; try apply (local_miss_setup st)).
  simpl. rewrite Hl. repeat split; try done.
  tier_log. fold (tier_calls st1). by rewrite Ht.
Qed.

Lemma get_miss this o key e st :
  heap st !! this = Some o ->
  let fullKey := keyPrefix o +:+ ":" +:+ key in
  let r := get this key e st in
  local_miss st fullKey -> redisGetFails e = false ->
  redis st !! fullKey = None ->
  r.1 = Return JNull /\
  tier_calls r.2 = (tier_calls st ++ [LocalGet fullKey; RedisGet fullKey])%list /\
  localCache r.2 = localCache st /\ redis r.2 = redis st.
Proof.
  intros Hh fullKey r Hmiss Hf Hred.
  destruct (get_unfold this o key e st Hh)
    as (st1 & b & _ & _ & Hl & Hr & Ht & Hget).
  subst r. rewrite Hget. fold fullKey.
  rewrite (get_body_miss fullKey e st1)
    by (by rewrite ?Hr; try apply (local_miss_setup st)).
  simpl. repeat split; try done.
  tier_log. fold (tier_calls st1). by rewrite Ht.
Qed.

(** C1.  The read-through contract of [get].  With [this] a live
    object and [fullKey] the key [get] builds from its prefix:
    (hit) when the local tier holds a value for [fullKey], [get]
    returns it after the single tier call [localCache.get], and both
    tiers are as before;
    (fallback) on a local miss, when Redis answers with a text that
    [JSON.parse] turns into [v], [get] returns [v] after the calls
    [localCache.get], [redisClient.get], [localCache.set], and the local
    tier now holds [v] for [fullKey];
    (miss) when neither tier holds [fullKey] and Redis answers, [get]
    returns [null] and throws nothing, both tiers as before. *)
Theorem get_read_through this o key e st :
  heap st !! this = Some o ->
  let fullKey := keyPrefix o +:+ ":" +:+ key in
  let r := get this key e st in
  (forall v, localCache st !! fullKey = Some v -> v <> JUndefined ->
     r.1 = Return v /\
     tier_calls r.2 = (tier_calls st ++ [LocalGet fullKey])%list /\
     localCache r.2 = localCache st /\ redis r.2 = redis st) /\
  (forall text v, local_miss st fullKey -> redisGetFails e = false ->
     redis st !! fullKey = Some text -> JSON_parse text = Some v ->
     r.1 = Return v /\
     tier_calls r.2 =
       (tier_calls st ++ [LocalGet fullKey; RedisGet fullKey; LocalSet fullKey v])%list /\
     localCache r.2 = <[fullKey := v]> (localCache st) /\ redis r.2 = redis st) /\
  (local_miss st fullKey -> redisGetFails e = false ->
     redis st !! fullKey = None ->
     r.1 = Return JNull /\
     tier_calls r.2 = (tier_calls st ++ [LocalGet fullKey; RedisGet fullKey])%list /\
     localCache r.2 = localCache st /\ redis r.2 = redis st).
Proof.
  intros Hh fullKey r. split; [|split].
  - intros v Hv Hdef. by apply (get_hit this o key v e st).
  - intros text v Hmiss Hf Hred Hp.
    by apply (get_fallback this o key text v e st).
  - intros Hmiss Hf Hred. by apply (get_miss this o key e st).
Qed.

(** ** [set] *)

(** [set] after its subscription step. *)
Definition set_body (fullKey : string) (data : jsval) : M unit :=
  let* ttl := (fun _ st => (Return (CACHE_TTL st), st)) in
  redisClient_setex fullKey ttl (JSON_stringify data) ;;
  localCache_set fullKey data.

Lemma set_unfold this o key data e st :
  heap st !! this = Some o ->
  exists st1 b,
    setupNatsSubscription this e st = (Return tt, st1) /\
    heap st1 !! this = Some (mkCacheService (keyPrefix o) b) /\
    localCache st1 = localCache st /\
    redis st1 = redis st /\
    tier_calls st1 = tier_calls st /\
    set this key data e st = set_body (keyPrefix o +:+ ":" +:+ key) data e st1.
Proof.
  intros Hh.
  destruct (setup_frame this o e st Hh)
    as (st1 & b & Hsetup & Hh1 & Hl & Hr & _ & _ & _ & _ & Ht).
  exists st1, b. repeat split; try done.
  unfold set, bind at 1. rewrite Hsetup.
  unfold bind at 1. unfold getKey, bind at 1. unfold deref. rewrite Hh1.
  reflexivity.
Qed.


Lemma set_body_returns fullKey data e st st' :
  set_body fullKey data e st = (Return tt, st') ->
  heap st' = heap st /\
  localCache st' = <[fullKey := data]> (localCache st) /\
  redis st' = <[fullKey := toArg (JSON_stringify data)]> (redis st).
Proof.
  unfold set_body, bind, redisClient_setex, localCache_set. simpl.
  destruct (redisSetexFails e); [done|].
  destruct (CACHE_TTL st <=? 0); [done|].
  simpl. by intros [= <-].
Qed.

(** A [set] that returned has written both tiers. *)
Lemma set_returns this o key data e st st' :
  heap st !! this = Some o ->
  set this key data e st = (Return tt, st') ->
  let fullKey := keyPrefix o +:+ ":" +:+ key in
  (exists b, heap st' !! this = Some (mkCacheService (keyPrefix o) b)) /\
  localCache st' = <[fullKey := data]> (localCache st) /\
  redis st' = <[fullKey := toArg (JSON_stringify data)]> (redis st).
Proof.
  intros Hh Hset fullKey.
  destruct (set_unfold this o key data e st Hh)
    as (st1 & b & _ & Hh1 & Hl & Hr & _ & Heq).
  rewrite Heq in Hset. apply set_body_returns in Hset as (Hh' & Hl' & Hr').
  rewrite Hh', Hl', Hr', Hl, Hr. eauto.
Qed.

(** C2.  Round trip: when [set(k, v)] has returned for a value [v]
    that has a JSON text, the next [get(k)] on the state it left
    returns [v], whatever the network does during that [get]. *)
Theorem set_get_round_trip this o key v e1 e2 st st' :
  heap st !! this = Some o ->
  JSON_stringify v <> None ->
  set this key v e1 st = (Return tt, st') ->
  (get this key e2 st').1 = Return v.
Proof.
  intros Hh Hser Hset.
  destruct (set_returns this o key v e1 st st' Hh Hset) as ([b Hh'] & Hl & _).
  assert (Hv : v <> JUndefined).
  { intros ->. by rewrite JSON_stringify_undefined in Hser. }
  apply (get_hit this _ key v e2 st' Hh'); [|done].
  simpl. rewrite Hl. apply lookup_insert_eq.
Qed.

(** *** What each method keeps of [this] *)

Lemma get_body_heap fullKey e st : heap (get_body fullKey e st).2 = heap st.
Proof.
  unfold get_body, bind, localCache_get, redisClient_get, localCache_set,
    ret, throw. simpl.
  destruct (is_defined _); simpl; [done|].
  destruct (redisGetFails e); simpl; [done|].
  destruct (redis _ !! _) as [text|]; simpl; [|done].
  destruct (truthy_text text); simpl; [|done].
  by destruct (JSON_parse _).
Qed.

Lemma set_body_heap fullKey data e st :
  heap (set_body fullKey data e st).2 = heap st.
Proof.
  unfold set_body, bind, redisClient_setex, localCache_set. simpl.
  destruct (redisSetexFails e); simpl; [done|].
  by destruct (CACHE_TTL st <=? 0).
Qed.

Lemma get_keeps_this this o key e st :
  heap st !! this = Some o ->
  exists b, heap (get this key e st).2 !! this
            = Some (mkCacheService (keyPrefix o) b).
Proof.
  intros Hh. destruct (get_unfold this o key e st Hh)
    as (st1 & b & _ & Hh1 & _ & _ & _ & ->).
  exists b. by rewrite get_body_heap.
Qed.

Lemma set_keeps_this this o key data e st :
  heap st !! this = Some o ->
  exists b, heap (set this key data e st).2 !! this
            = Some (mkCacheService (keyPrefix o) b).
Proof.
  intros Hh. destruct (set_unfold this o key data e st Hh)
    as (st1 & b & _ & Hh1 & _ & _ & _ & ->).
  exists b. by rewrite set_body_heap.
Qed.

(** ** Errors on the read path *)

(** C4, amended.  On a local miss, when Redis answers with a text
    that is not empty and that [JSON.parse] rejects, [get] throws the
    [SyntaxError] to its caller and leaves both tiers as they were. *)
Theorem get_corrupt_entry_throws this o key text e st :
  heap st !! this = Some o ->
  let fullKey := keyPrefix o +:+ ":" +:+ key in
  local_miss st fullKey ->
  redisGetFails e = false ->
  redis st !! fullKey = Some text ->
  text <> EmptyString ->
  JSON_parse text = None ->
  (get this key e st).1 = Throw SyntaxError /\
  localCache (get this key e st).2 = localCache st /\
  redis (get this key e st).2 = redis st.
Proof.
  intros Hh fullKey Hmiss Hf Hred Hne Hp.
  destruct (get_unfold this o key e st Hh)
    as (st1 & b & _ & _ & Hl & Hr & Ht & Hget).
  rewrite Hget. fold fullKey.
  rewrite (get_body_corrupt fullKey text e st1)
    by (by rewrite ?Hr; try apply (local_miss_setup st)).
  done.
Qed.

(** [getAllMovies] returns whatever the cache does. *)
Lemma getAllMovies_returns cacheService found e st :
  exists movies, (getAllMovies cacheService found e st).1 = Return movies.
Proof.
  unfold getAllMovies, bind, try_catch, console_error, ret.
  destruct (get cacheService "all-movies" e st) as [[v|err] st1]; simpl.
  - destruct (truthy v); simpl; [eauto|].
    destruct (set cacheService "all-movies" found e st1) as [[[]|err] st2];
      simpl; eauto.
  - destruct (set cacheService "all-movies" found e _) as [[[]|err2] st2];
      simpl; eauto.
Qed.

Lemma getAllMovies_get_throws cacheService found err e st :
  (get cacheService "all-movies" e st).1 = Throw err ->
  (getAllMovies cacheService found e st).1 = Return found.
Proof.
  unfold getAllMovies, bind, try_catch, console_error, ret.
  destruct (get cacheService "all-movies" e st) as [[v|err'] st1]; simpl;
    [done|intros _].
  by destruct (set cacheService "all-movies" found e _) as [[[]|err2] st2].
Qed.

(** The log only grows: what [setupNatsSubscription], [get] and [set]
    add to it. *)
Lemma setup_log this o e st :
  heap st !! this = Some o ->
  exists st1 l,
    setupNatsSubscription this e st = (Return tt, st1) /\
    log st1 = (log st ++ l)%list /\
    (natsSubscribed o = false ->
     natsClient st = false \/ natsSubscribeFails e = true ->
     In (ConsoleError "Failed to setup NATS subscription:") l).
Proof.
  intros Hh. destruct (natsSubscribed o) eqn:Hs.
  - exists st, []. rewrite (setup_subscribed _ _ _ _ Hh Hs), app_nil_r. done.
  - destruct (natsClient st) eqn:Hc; [destruct (natsSubscribeFails e) eqn:Hf|].
    + eexists _, [_; _]. rewrite (setup_refused _ _ _ _ Hh Hs Hc Hf).
      split; [done|]. split; [by simpl; rewrite <- app_assoc|].
      intros _ _. right. by left.
    + eexists _, [_]. rewrite (setup_registers _ _ _ _ Hh Hs Hc Hf).
      split; [done|]. split; [done|]. by intros _ [?|?].
    + eexists _, [_]. rewrite (setup_no_client _ _ _ _ Hh Hs Hc).
      split; [done|]. split; [done|]. intros _ _. by left.
Qed.

Lemma get_body_log fullKey e st :
  exists calls l,
    tier_calls (get_body fullKey e st).2
      = (tier_calls st ++ LocalGet fullKey :: calls)%list /\
    log (get_body fullKey e st).2 = (log st ++ l)%list.
Proof.
  unfold get_body, bind, localCache_get, redisClient_get, localCache_set,
    ret, throw. simpl.
  destruct (is_defined _); simpl; [|
  destruct (redisGetFails e); simpl; [|
  destruct (redis _ !! _) as [text|]; simpl; [
  destruct (truthy_text text); simpl; [
  destruct (JSON_parse _); simpl |] |]]];
    eexists _, _; (split; [tier_log; reflexivity|]);
    rewrite <- ?app_assoc; reflexivity.
Qed.

Lemma set_body_log fullKey data e st :
  exists l, log (set_body fullKey data e st).2 = (log st ++ l)%list.
Proof.
  unfold set_body, bind, redisClient_setex, localCache_set. simpl.
  destruct (redisSetexFails e); simpl; [by eexists|].
  destruct (CACHE_TTL st <=? 0); simpl; [by eexists|].
  eexists. by rewrite <- app_assoc.
Qed.

Lemma set_log this o key data e st :
  heap st !! this = Some o ->
  exists l, log (set this key data e st).2 = (log st ++ l)%list.
Proof.
  intros Hh.
  destruct (setup_log this o e st Hh) as (st1 & l1 & Hsetup & Hl1 & _).
  destruct (set_unfold this o key data e st Hh)
    as (st1' & b & Hsetup' & _ & _ & _ & _ & ->).
  rewrite Hsetup in Hsetup'. injection Hsetup' as <-.
  destruct (set_body_log (keyPrefix o +:+ ":" +:+ key) data e st1) as [l2 Hl2].
  exists (l1 ++ l2)%list. by rewrite Hl2, Hl1, <- app_assoc.
Qed.

(** What [getAllMovies] does when its [get] throws: it reports the
    error on the console and returns what the primary store found. *)
Lemma getAllMovies_get_throws_logged cacheService o found err e st :
  heap st !! cacheService = Some o ->
  (get cacheService "all-movies" e st).1 = Throw err ->
  (getAllMovies cacheService found e st).1 = Return found /\
  In (ConsoleError "Error getting from cache:")
     (log (getAllMovies cacheService found e st).2).
Proof.
  intros Hh.
  destruct (get_keeps_this cacheService o "all-movies" e st Hh) as [b Hh1].
  unfold getAllMovies, bind, try_catch, console_error, ret.
  destruct (get cacheService "all-movies" e st) as [[v|err'] g]; simpl in *;
    [done|intros _].
  set (g' := emit (ConsoleError "Error getting from cache:") g).
  assert (Hh' : heap g' !! cacheService
                = Some (mkCacheService (keyPrefix o) b)) by done.
  destruct (set_log cacheService _ "all-movies" found e g' Hh') as [l Hl].
  assert (Hin : In (ConsoleError "Error getting from cache:") (log g')).
  { subst g'. simpl. apply in_or_app. right. by left. }
  destruct (set cacheService "all-movies" found e g') as [[[]|err2] st2];
    cbn [fst snd] in *; (split; [done|]).
  - rewrite Hl. apply in_or_app. by left.
  - cbn [emit log]. apply in_or_app. left. rewrite Hl. apply in_or_app. by left.
Qed.

(** C5, amended.  During [get], a failure to subscribe is caught
    inside [get]: the only errors [get] can throw to a caller that
    holds a live object are a Redis connection failure and a
    [SyntaxError].  When the subscription attempt fails, [get] reports
    it on the console and goes on to probe the tiers: its first tier
    call is [localCache.get], a local value is returned, and when both
    tiers miss the result is [null].  A failure of the Redis lookup on a
    local miss is thrown by [get] to its caller;
    [MovieService.getAllMovies] catches it, reports it on the console
    and returns what the primary store found. *)
Theorem get_degradation this o key e st :
  heap st !! this = Some o ->
  let fullKey := keyPrefix o +:+ ":" +:+ key in
  (forall err, (get this key e st).1 = Throw err ->
     err = RedisConnectionError \/ err = SyntaxError) /\
  (redisGetFails e = false ->
     (get this key e st).1 <> Throw RedisConnectionError) /\
  (natsSubscribed o = false ->
   natsClient st = false \/ natsSubscribeFails e = true ->
     (exists l, log (get this key e st).2 = (log st ++ l)%list /\
        In (ConsoleError "Failed to setup NATS subscription:") l) /\
     (exists calls, tier_calls (get this key e st).2
        = (tier_calls st ++ LocalGet fullKey :: calls)%list) /\
     (forall v, localCache st !! fullKey = Some v -> v <> JUndefined ->
        (get this key e st).1 = Return v) /\
     (local_miss st fullKey -> redisGetFails e = false ->
      redis st !! fullKey = None ->
        (get this key e st).1 = Return JNull)) /\
  (local_miss st fullKey -> redisGetFails e = true ->
     (get this key e st).1 = Throw RedisConnectionError) /\
  (forall found,
     local_miss st (keyPrefix o +:+ ":" +:+ "all-movies") ->
     redisGetFails e = true ->
     (getAllMovies this found e st).1 = Return found /\
     In (ConsoleError "Error getting from cache:")
        (log (getAllMovies this found e st).2)).
Proof.
  intros Hh fullKey.
  assert (Hcases : forall k,
    exists st1, localCache st1 = localCache st /\
      get this k e st = get_body (keyPrefix o +:+ ":" +:+ k) e st1).
  { intros k. destruct (get_unfold this o k e st Hh)
      as (st1 & b & _ & _ & Hl & _ & _ & Hget). eauto. }
  split; [|split; [|split; [|split]]].
  - intros err. destruct (Hcases key) as (st1 & _ & ->).
    unfold get_body, bind, localCache_get, redisClient_get, localCache_set,
      ret, throw. simpl.
    destruct (is_defined _); simpl; [done|].
    destruct (redisGetFails e); simpl; [intros [= <-]; by left|].
    destruct (redis _ !! _) as [text|]; simpl; [|done].
    destruct (truthy_text text); simpl; [|done].
    destruct (JSON_parse _); simpl; [done|].
    intros [= <-]; by right.
  - intros Hf. destruct (Hcases key) as (st1 & _ & ->).
    unfold get_body, bind, localCache_get, redisClient_get, localCache_set,
      ret, throw. simpl.
    destruct (is_defined _); simpl; [done|]. rewrite Hf.
    destruct (redis _ !! _) as [text|]; simpl; [|done].
    destruct (truthy_text text); simpl; [|done].
    by destruct (JSON_parse _).
  - intros Hflag Hfail.
    destruct (setup_log this o e st Hh) as (st1 & l1 & Hsetup & Hl1 & Hlogged).
    destruct (get_unfold this o key e st Hh)
      as (st1' & b & Hsetup' & _ & _ & _ & Ht & Hget).
    rewrite Hsetup in Hsetup'. injection Hsetup' as <-.
    destruct (get_body_log fullKey e st1) as (calls & l2 & Hcalls & Hl2).
    split; [|split; [|split]].
    + exists (l1 ++ l2)%list. rewrite Hget. fold fullKey.
      rewrite Hl2, Hl1, <- app_assoc. split; [done|].
      apply in_or_app. left. by apply Hlogged.
    + exists calls. rewrite Hget. fold fullKey. by rewrite Hcalls, Ht.
    + intros v Hv Hdef. by apply (get_hit this o key v e st).
    + intros Hmiss Hf Hred. by apply (get_miss this o key e st).
  - intros Hmiss Hf. destruct (Hcases key) as (st1 & Hl & ->).
    by rewrite (get_body_unreachable _ e st1)
      by (by try apply (local_miss_setup st)).
  - intros found Hmiss Hf.
    apply (getAllMovies_get_throws_logged this o found RedisConnectionError);
      [done|].
    destruct (Hcases "all-movies") as (st1 & Hl & ->).
    by rewrite (get_body_unreachable _ e st1)
      by (by try apply (local_miss_setup st)).
Qed.

(** ** [clearAllCaches] *)

Lemma elem_of_matching_keys pattern (r : gmap string string) k :
  k ∈ matching_keys pattern r <-> Glob.glob pattern k = true /\ is_Some (r !! k).
Proof.
  unfold matching_keys.
  rewrite list_elem_of_filter, elem_of_elements, elem_of_dom. done.
Qed.

Lemma lookup_delete_keys keys (r : gmap string string) k :
  delete_keys keys r !! k = if decide (k ∈ keys) then None else r !! k.
Proof.
  unfold delete_keys.
  induction keys as [|k' keys IH]; cbn [foldr].
  - rewrite decide_False; [done|]. apply not_elem_of_nil.
  - destruct (decide (k = k')) as [->|Hne].
    + rewrite lookup_delete_eq. rewrite decide_True; [done|]. left.
    + rewrite lookup_delete_ne by done. rewrite IH.
      destruct (decide (k ∈ keys)) as [Hin|Hin].
      * rewrite decide_True; [done|]. by right.
      * rewrite decide_False; [done|]. by intros [?|?]%elem_of_cons.
Qed.

(** The state [clearAllCaches] reaches when Redis answers both
    commands. *)
Definition cleared (pattern : string) (st : state) : state :=
  let keys := matching_keys pattern (redis st) in
  let st1 := emit (RedisKeys pattern) (with_localCache ∅ (emit LocalFlushAll st)) in
  match keys with
  | [] => st1
  | _ :: _ => with_redis (delete_keys keys (redis st)) (emit (RedisDel keys) st1)
  end.

Lemma clearAllCaches_answers this o e st :
  heap st !! this = Some o ->
  redisKeysFails e = false -> redisDelFails e = false ->
  clearAllCaches this e st = (Return tt, cleared (keyPrefix o +:+ ":*") st).
Proof.
  intros Hh Hk Hd.
  unfold clearAllCaches, try_catch, bind, localCache_flushAll, deref,
    redisClient_keys, redisClient_del, cleared.
  simpl. rewrite Hh. simpl. rewrite Hk. simpl.
  destruct (matching_keys _ _) as [|k ks]; simpl; [done|].
  by rewrite Hd.
Qed.

(** [clearAllCaches] never throws and never touches an object. *)
Lemma clearAllCaches_returns this e st :
  (clearAllCaches this e st).1 = Return tt /\
  heap (clearAllCaches this e st).2 = heap st /\
  subscriptions (clearAllCaches this e st).2 = subscriptions st.
Proof.
  unfold clearAllCaches, try_catch, bind, localCache_flushAll, deref,
    redisClient_keys, redisClient_del, console_error, ret.
  simpl. destruct (heap st !! this); simpl; [|done].
  destruct (redisKeysFails e); simpl; [done|].
  destruct (0 <? length _)%nat; simpl; [|done].
  by destruct (redisDelFails e).
Qed.

Lemma clearAllCaches_flushes this e st :
  localCache (clearAllCaches this e st).2 = ∅.
Proof.
  unfold clearAllCaches, try_catch, bind, localCache_flushAll, deref,
    redisClient_keys, redisClient_del, console_error, ret.
  simpl. destruct (heap st !! this); simpl; [|done].
  destruct (redisKeysFails e); simpl; [done|].
  destruct (0 <? length _)%nat; simpl; [|done].
  by destruct (redisDelFails e).
Qed.

Lemma cleared_plain prefix st :
  Glob.plain prefix = true ->
  let st' := cleared (prefix +:+ ":*") st in
  localCache st' = ∅ /\
  (forall k, in_namespace prefix k -> redis st' !! k = None) /\
  (forall k, ~ in_namespace prefix k -> redis st' !! k = redis st !! k).
Proof.
  intros Hplain st'.
  assert (Hlookup : forall k, redis st' !! k =
    if decide (k ∈ matching_keys (prefix +:+ ":*") (redis st))
    then None else redis st !! k).
  { intros k. subst st'. unfold cleared.
    destruct (matching_keys _ _) as [|k' ks] eqn:Hm; cbn [redis with_redis].
    - rewrite decide_False; [done|]. apply not_elem_of_nil.
    - apply lookup_delete_keys. }
  split; [|split].
  - subst st'. unfold cleared. by destruct (matching_keys _ _).
  - intros k Hk. rewrite Hlookup. case_decide as Hin; [done|].
    rewrite elem_of_matching_keys, glob_plain_namespace in Hin by done.
    destruct (redis st !! k) eqn:Hr; [|done].
    exfalso. apply Hin. eauto.
  - intros k Hk. rewrite Hlookup. case_decide as Hin; [|done].
    rewrite elem_of_matching_keys, glob_plain_namespace in Hin by done.
    tauto.
Qed.

(** After a clear that Redis answered, every [get] that Redis
    answers misses. *)
Lemma get_after_clear this o key e e' st :
  heap st !! this = Some o ->
  Glob.plain (keyPrefix o) = true ->
  redisKeysFails e = false -> redisDelFails e = false ->
  redisGetFails e' = false ->
  let st' := (clearAllCaches this e st).2 in
  (get this key e' st').1 = Return JNull /\
  localCache (get this key e' st').2 = ∅ /\
  redis (get this key e' st').2 = redis st'.
Proof.
  intros Hh Hplain Hk Hd Hg st'.
  assert (Hh' : heap st' !! this = Some o).
  { subst st'. by rewrite (proj1 (proj2 (clearAllCaches_returns this e st))). }
  subst st'. rewrite (clearAllCaches_answers this o e st Hh Hk Hd) in *.
  simpl in *.
  destruct (cleared_plain (keyPrefix o) st Hplain) as (Hl & Hin & _).
  destruct (get_miss this o key e' _ Hh') as (Hres & _ & Hl' & Hr'); try done.
  - unfold local_miss. by rewrite Hl.
  - apply Hin. by exists key.
  - by rewrite Hl', Hl.
Qed.

(** X17.  [clearAllCaches] always returns and always empties
    the local tier.  For a namespace without the characters that are
    special in a Redis pattern, when Redis answers: it asks Redis for
    the keys matching [namespace:*], which are exactly the stored keys
    of the namespace, and deletes them and no other key; when no key
    matches, no delete command is sent.  Consequently after
    [set(k1, v1)], [set(k2, v2)] and [clearAllCaches()], [get(k1)] and
    [get(k2)] both return [null]. *)
Theorem clearAllCaches_plain_namespace this o st :
  heap st !! this = Some o ->
  Glob.plain (keyPrefix o) = true ->
  let pattern := keyPrefix o +:+ ":*" in
  (forall e,
     (clearAllCaches this e st).1 = Return tt /\
     localCache (clearAllCaches this e st).2 = ∅) /\
  (forall e, redisKeysFails e = false -> redisDelFails e = false ->
     let r := clearAllCaches this e st in
     let keys := matching_keys pattern (redis st) in
     r.1 = Return tt /\
     localCache r.2 = ∅ /\
     (forall k, k ∈ keys <-> in_namespace (keyPrefix o) k /\ is_Some (redis st !! k)) /\
     (forall k, in_namespace (keyPrefix o) k -> redis r.2 !! k = None) /\
     (forall k, ~ in_namespace (keyPrefix o) k -> redis r.2 !! k = redis st !! k) /\
     log r.2 =
       (log st ++ [LocalFlushAll; RedisKeys pattern] ++
        match keys with [] => [] | _ :: _ => [RedisDel keys] end)%list) /\
  (forall k1 v1 k2 v2 e1 e2 e3 e4 e5,
     redisKeysFails e3 = false -> redisDelFails e3 = false ->
     redisGetFails e4 = false -> redisGetFails e5 = false ->
     let st1 := (set this k1 v1 e1 st).2 in
     let st2 := (set this k2 v2 e2 st1).2 in
     let st3 := (clearAllCaches this e3 st2).2 in
     let r1 := get this k1 e4 st3 in
     let r2 := get this k2 e5 r1.2 in
     r1.1 = Return JNull /\ r2.1 = Return JNull).
Proof.
  intros Hh Hplain pattern. split; [|split].
  - intros e. split; [apply clearAllCaches_returns|apply clearAllCaches_flushes].
  - intros e Hk Hd r keys. subst r.
    rewrite (clearAllCaches_answers this o e st Hh Hk Hd). simpl.
    destruct (cleared_plain (keyPrefix o) st Hplain) as (Hl & Hin & Hout).
    split; [done|]. split; [done|]. split; [|split; [done|split; [done|]]].
    + intros k. subst keys pattern. rewrite elem_of_matching_keys.
      by rewrite glob_plain_namespace.
    + subst keys pattern. unfold cleared.
      destruct (matching_keys _ _); simpl; by rewrite <- ?app_assoc.
  - intros k1 v1 k2 v2 e1 e2 e3 e4 e5 Hk Hd Hg4 Hg5 st1 st2 st3 r1 r2.
    destruct (set_keeps_this this o k1 v1 e1 st Hh) as [b1 Hh1].
    destruct (set_keeps_this this _ k2 v2 e2 st1 Hh1) as [b2 Hh2].
    simpl in Hh2. fold st2 in Hh2.
    destruct (get_after_clear this _ k1 e3 e4 st2 Hh2 Hplain Hk Hd Hg4)
      as (Hr1 & Hl1 & Hred1).
    fold st3 in Hr1, Hl1, Hred1. fold r1 in Hr1, Hl1, Hred1.
    split; [done|].
    assert (Hh3 : heap st3 !! this = Some (mkCacheService (keyPrefix o) b2)).
    { subst st3. by rewrite (proj1 (proj2 (clearAllCaches_returns this e3 st2))). }
    destruct (get_keeps_this this _ k1 e4 st3 Hh3) as [b4 Hh4].
    simpl in Hh4. fold r1 in Hh4.
    apply (get_miss this _ k2 e5 r1.2 Hh4); try done; simpl.
    + unfold local_miss. by rewrite Hl1.
    + rewrite Hred1. subst st3.
      rewrite (clearAllCaches_answers this _ e3 st2 Hh2 Hk Hd). simpl.
      destruct (cleared_plain (keyPrefix o) st2 Hplain) as (_ & Hin & _).
      apply Hin. by exists k2.
Qed.

(** ** [publishCacheClear] *)

(** The publishing step alone. *)
Definition publish_body : M unit :=
  try_catch
    (getNatsClient ;;
     nats_publish EVENTS_MOVIE_CACHE_CLEAR [])
    (fun _ => console_error "Error publishing cache clear event:").

Lemma publish_body_frame e st :
  (publish_body e st).1 = Return tt /\
  heap (publish_body e st).2 = heap st /\
  subscriptions (publish_body e st).2 = subscriptions st /\
  localCache (publish_body e st).2 = localCache st /\
  redis (publish_body e st).2 = redis st /\
  tier_calls (publish_body e st).2 = tier_calls st.
Proof.
  unfold publish_body, try_catch, bind, getNatsClient, nats_publish,
    console_error.
  destruct (natsClient st); simpl; [destruct (natsPublishFails e); simpl|];
    repeat split; try done; tier_log; by rewrite ?app_nil_r.
Qed.

Lemma publish_unfold this o e st :
  heap st !! this = Some o ->
  exists st1 b,
    setupNatsSubscription this e st = (Return tt, st1) /\
    heap st1 !! this = Some (mkCacheService (keyPrefix o) b) /\
    publishCacheClear this e st = publish_body e st1.
Proof.
  intros Hh.
  destruct (setup_frame this o e st Hh) as (st1 & b & Hsetup & Hh1 & _).
  exists st1, b. repeat split; try done.
  unfold publishCacheClear, bind at 1. by rewrite Hsetup.
Qed.

Lemma run_callbacks_flushes subscribers e st :
  subscribers <> [] -> localCache (run_callbacks subscribers e st).2 = ∅.
Proof.
  revert st. induction subscribers as [|this rest IH]; intros st Hne; [done|].
  cbn [run_callbacks]. unfold bind.
  destruct (clearAllCaches this e st) as [res st1] eqn:Hclear.
  pose proof (clearAllCaches_returns this e st) as (Hret & _).
  pose proof (clearAllCaches_flushes this e st) as Hflush.
  rewrite Hclear in Hret, Hflush. simpl in Hret, Hflush. subst res.
  destruct rest as [|this' rest']; [done|].
  by apply IH.
Qed.

Lemma publish_body_sends e st :
  natsClient st = true -> natsPublishFails e = false ->
  publish_body e st =
  (Return tt,
   with_inflight (S (inflight st))
     (emit (NatsPublish EVENTS_MOVIE_CACHE_CLEAR []) st)).
Proof.
  intros Hc Hf.
  unfold publish_body, try_catch, bind, getNatsClient, nats_publish.
  by rewrite Hc, Hf.
Qed.

Lemma deliver_flushes e st :
  inflight st <> O -> subscriptions st <> [] ->
  localCache (deliver e st).2 = ∅.
Proof.
  intros Hi Hs. unfold deliver.
  destruct (inflight st) as [|n]; [done|].
  by apply run_callbacks_flushes.
Qed.

(** C7.  [publishCacheClear] changes neither tier and calls neither:
    the contents of the local tier and of Redis, and the calls made on
    them, are the same when it returns.  When it has put the signal on
    the bus and its callback is registered, the local tier is emptied
    later, by the callback, once the signal is delivered. *)
Theorem publishCacheClear_frame this e st :
  let r := publishCacheClear this e st in
  localCache r.2 = localCache st /\
  redis r.2 = redis st /\
  tier_calls r.2 = tier_calls st /\
  (forall o e',
     heap st !! this = Some o ->
     natsClient st = true -> natsPublishFails e = false ->
     In this (subscriptions r.2) ->
     r.1 = Return tt /\
     inflight r.2 = S (inflight st) /\
     localCache (deliver e' r.2).2 = ∅).
Proof.
  intros r. subst r.
  destruct (heap st !! this) as [o|] eqn:Hh.
  - destruct (setup_frame this o e st Hh)
      as (st1 & b & Hsetup & Hh1 & Hl & Hr & _ & Hc & Hi & _ & Ht).
    assert (Heq : publishCacheClear this e st = publish_body e st1).
    { unfold publishCacheClear, bind at 1. by rewrite Hsetup. }
    rewrite Heq.
    destruct (publish_body_frame e st1) as (Hret & _ & Hs' & Hl' & Hr' & Ht').
    rewrite Hl', Hr', Ht', Hl, Hr, Ht.
    split; [done|]. split; [done|]. split; [done|].
    intros o' e' _ Hclient Hpub Hin.
    rewrite Hclient in Hc.
    rewrite (publish_body_sends e st1 Hc Hpub) in *. simpl in *.
    split; [done|]. split; [by rewrite Hi|].
    apply deliver_flushes; simpl; [done|].
    intros Hnil. rewrite Hnil in Hin. by destruct Hin.
  - unfold publishCacheClear, setupNatsSubscription, bind, deref.
    rewrite Hh. simpl. repeat split; try done.
Qed.

(** ** Errors on the write path *)


(** ** The singleton *)

Lemma getInstance_bound prefix r st :
  instance st = Some r ->
  getInstance prefix st = (r, st).
Proof. intros Hi. unfold getInstance. by rewrite Hi. Qed.

Lemma getInstances_bound prefixes r st :
  instance st = Some r ->
  getInstances prefixes st = (replicate (length prefixes) r, st).
Proof.
  intros Hi. induction prefixes as [|p ps IH]; [done|].
  cbn [getInstances]. rewrite (getInstance_bound p r st Hi), IH. done.
Qed.

(** C3.  In a process whose static field is still unset, any
    sequence of calls [getInstance(p1)], [getInstance(p2)], ... creates
    one object: every call returns the same reference, the object's key
    prefix is [p1], the prefix of the first call, and every cache key is
    built from [p1]; the prefixes of the later calls are ignored. *)
Theorem getInstance_singleton p1 ps st :
  instance st = None ->
  let r1 := length (heap st) in
  let result := getInstances (p1 :: ps) st in
  result.1 = replicate (S (length ps)) r1 /\
  instance result.2 = Some r1 /\
  heap result.2 = (heap st ++ [mkCacheService p1 false])%list /\
  heap result.2 !! r1 = Some (mkCacheService p1 false) /\
  (forall key e, (getKey r1 key e result.2).1 = Return (p1 +:+ ":" +:+ key)).
Proof.
  intros Hi r1 result.
  assert (Hrun : result =
    (replicate (S (length ps)) r1,
     with_instance (Some r1)
       (with_heap (heap st ++ [mkCacheService p1 false]) st))).
  { subst result. cbn [getInstances]. unfold getInstance at 1. rewrite Hi.
    by rewrite (getInstances_bound ps r1). }
  rewrite Hrun. simpl.
  assert (Hlook : (heap st ++ [mkCacheService p1 false])%list !! r1
                  = Some (mkCacheService p1 false)).
  { subst r1. by rewrite lookup_app_r, Nat.sub_diag. }
  split; [done|]. split; [done|]. split; [done|]. split; [done|].
  intros key e. unfold getKey, bind, deref. simpl. by rewrite Hlook.
Qed.

(** ** The subscription state *)

(** A step is quiet when it leaves the objects, the registered
    callbacks and the NATS client alone, and only adds to the log
    events that are not calls of [nats.subscribe]. *)
Definition quiet (st st' : state) : Prop :=
  heap st' = heap st /\
  subscriptions st' = subscriptions st /\
  natsClient st' = natsClient st /\
  exists l, log st' = (log st ++ l)%list /\ List.filter is_subscribe_call l = [].

Lemma quiet_refl st : quiet st st.
Proof. repeat split. exists []. by rewrite app_nil_r. Qed.

Lemma quiet_trans st1 st2 st3 : quiet st1 st2 -> quiet st2 st3 -> quiet st1 st3.
Proof.
  intros (Hh & Hs & Hc & l & Hl & Hf) (Hh' & Hs' & Hc' & l' & Hl' & Hf').
  repeat split; try congruence.
  exists (l ++ l')%list. rewrite Hl', Hl, <- app_assoc. split; [done|].
  by rewrite List.filter_app, Hf, Hf'.
Qed.

Lemma quiet_subscribe_calls st st' :
  quiet st st' -> subscribe_calls st' = subscribe_calls st.
Proof.
  intros (_ & _ & _ & l & Hl & Hf). unfold subscribe_calls.
  by rewrite Hl, List.filter_app, Hf, app_nil_r.
Qed.

Ltac quiet_step :=
  repeat split;
  first
    [ by exists []; rewrite app_nil_r
    | simpl; rewrite <- ?app_assoc; eexists; split; [reflexivity|reflexivity] ].

Lemma get_body_quiet fullKey e st : quiet st (get_body fullKey e st).2.
Proof.
  unfold get_body, bind, localCache_get, redisClient_get, localCache_set,
    ret, throw. simpl.
  destruct (is_defined _); simpl; [quiet_step|].
  destruct (redisGetFails e); simpl; [quiet_step|].
  destruct (redis _ !! _) as [text|]; simpl; [|quiet_step].
  destruct (truthy_text text); simpl; [|quiet_step].
  destruct (JSON_parse _); simpl; quiet_step.
Qed.

Lemma set_body_quiet fullKey data e st : quiet st (set_body fullKey data e st).2.
Proof.
  unfold set_body, bind, redisClient_setex, localCache_set. simpl.
  destruct (redisSetexFails e); simpl; [quiet_step|].
  destruct (CACHE_TTL st <=? 0); simpl; quiet_step.
Qed.

Lemma publish_body_quiet e st : quiet st (publish_body e st).2.
Proof.
  unfold publish_body, try_catch, bind, getNatsClient, nats_publish,
    console_error.
  destruct (natsClient st); simpl; [destruct (natsPublishFails e); simpl|];
    quiet_step.
Qed.

Lemma clearAllCaches_quiet this e st : quiet st (clearAllCaches this e st).2.
Proof.
  unfold clearAllCaches, try_catch, bind, localCache_flushAll, deref,
    redisClient_keys, redisClient_del, console_error, ret.
  simpl. destruct (heap st !! this); simpl; [|quiet_step].
  destruct (redisKeysFails e); simpl; [quiet_step|].
  destruct (0 <? length _)%nat; simpl; [|quiet_step].
  destruct (redisDelFails e); simpl; quiet_step.
Qed.

Lemma run_callbacks_quiet subscribers e st :
  quiet st (run_callbacks subscribers e st).2.
Proof.
  revert st. induction subscribers as [|this rest IH]; intros st.
  - apply quiet_refl.
  - cbn [run_callbacks]. unfold bind.
    pose proof (clearAllCaches_quiet this e st) as Hq.
    destruct (clearAllCaches this e st) as [[[]|err] st1]; simpl in *.
    + eapply quiet_trans; [exact Hq|apply IH].
    + exact Hq.
Qed.

Lemma deliver_quiet e st : quiet st (deliver e st).2.
Proof.
  unfold deliver. destruct (inflight st) as [|n]; [apply quiet_refl|].
  eapply quiet_trans; [|apply run_callbacks_quiet].
  repeat split. exists []. by rewrite app_nil_r.
Qed.

(** A call that subscribes is [setupNatsSubscription] followed by a
    quiet step. *)
Lemma perform_subscribing this o c e st :
  heap st !! this = Some o -> subscribing c = true ->
  exists st1,
    setupNatsSubscription this e st = (Return tt, st1) /\
    quiet st1 (perform this c e st).
Proof.
  intros Hh Hc. destruct c; try done; simpl.
  - destruct (get_unfold this o key e st Hh)
      as (st1 & b & Hsetup & _ & _ & _ & _ & ->).
    exists st1. split; [done|]. apply get_body_quiet.
  - destruct (set_unfold this o key data e st Hh)
      as (st1 & b & Hsetup & _ & _ & _ & _ & ->).
    exists st1. split; [done|]. apply set_body_quiet.
  - destruct (publish_unfold this o e st Hh) as (st1 & b & Hsetup & _ & ->).
    exists st1. split; [done|]. apply publish_body_quiet.
Qed.

Lemma perform_other this c e st :
  subscribing c = false -> quiet st (perform this c e st).
Proof.
  intros Hc. destruct c; try done; simpl.
  - apply clearAllCaches_quiet.
  - apply deliver_quiet.
Qed.

(** The registered callbacks agree with the flag of [this]. *)
Definition subscription_inv (this : nat) (prefix : string) (st : state) : Prop :=
  exists o, heap st !! this = Some o /\ keyPrefix o = prefix /\
    subscriptions st = if natsSubscribed o then [this] else [].

(** One call, from a state where callbacks and flag agree. *)
Lemma perform_step this o c e st :
  heap st !! this = Some o ->
  subscriptions st = (if natsSubscribed o then [this] else []) ->
  let st' := perform this c e st in
  exists o', heap st' !! this = Some o' /\ keyPrefix o' = keyPrefix o /\
    subscriptions st' = (if natsSubscribed o' then [this] else []) /\
    (subscribing c = true ->
     if natsSubscribed o then
       natsSubscribed o' = true /\ subscribe_calls st' = subscribe_calls st
     else if natsClient st && negb (natsSubscribeFails e) then
       natsSubscribed o' = true
     else
       natsSubscribed o' = false /\
       exists l, log st' = (log st ++ l)%list /\
         In (ConsoleError "Failed to setup NATS subscription:") l).
Proof.
  intros Hh Hs st'. subst st'.
  destruct (subscribing c) eqn:Hc.
  - destruct (perform_subscribing this o c e st Hh Hc) as (st1 & Hsetup & Hq).
    destruct Hq as (Hh' & Hs' & Hc' & l & Hl & Hf).
    rewrite Hh', Hs'.
    destruct o as [p flag]; simpl in *. destruct flag.
    + rewrite (setup_subscribed _ _ _ _ Hh eq_refl) in Hsetup.
      injection Hsetup as <-. eexists. repeat split; try done.
      unfold subscribe_calls. by rewrite Hl, List.filter_app, Hf, app_nil_r.
    + destruct (natsClient st) eqn:Hcl;
        [destruct (natsSubscribeFails e) eqn:Hfail|]; simpl.
      * rewrite (setup_refused _ _ _ _ Hh eq_refl Hcl Hfail) in Hsetup.
        injection Hsetup as <-. simpl in *.
        eexists. repeat split; try done.
        exists ([NatsSubscribe EVENTS_MOVIE_CACHE_CLEAR;
                 ConsoleError "Failed to setup NATS subscription:"] ++ l)%list.
        rewrite Hl, <- !app_assoc. split; [done|]. right. by left.
      * rewrite (setup_registers _ _ _ _ Hh eq_refl Hcl Hfail) in Hsetup.
        injection Hsetup as <-. simpl in *.
        eexists. rewrite list_lookup_insert_eq by (by eapply lookup_lt_Some).
        repeat split; try done. simpl. by rewrite Hs.
      * rewrite (setup_no_client _ _ _ _ Hh eq_refl Hcl) in Hsetup.
        injection Hsetup as <-. simpl in *.
        eexists. repeat split; try done.
        exists ([ConsoleError "Failed to setup NATS subscription:"] ++ l)%list.
        rewrite Hl, <- !app_assoc. split; [done|]. by left.
  - destruct (perform_other this c e st Hc) as (Hh' & Hs' & _).
    rewrite Hh', Hs'. exists o. repeat split; try done.
Qed.

Lemma run_inv this prefix calls st :
  subscription_inv this prefix st ->
  subscription_inv this prefix (run this calls st).
Proof.
  revert st. induction calls as [|[c e] rest IH]; intros st Hinv; [done|].
  cbn [run]. apply IH.
  destruct Hinv as (o & Hh & Hp & Hs).
  destruct (perform_step this o c e st Hh Hs) as (o' & Hh' & Hp' & Hs' & _).
  exists o'. repeat split; try done. congruence.
Qed.

(** C8.  From a process that has not subscribed, after any sequence
    of calls of [get], [set], [publishCacheClear], [clearAllCaches] and
    deliveries, each under its own network conditions: at most one
    callback is registered, and one is registered exactly when the flag
    of [this] is set.  From then on a further [get], [set] or
    [publishCacheClear] (i) with the flag set keeps the flag and the one
    callback and does not call [nats.subscribe]; (ii) with the flag
    unset tries to subscribe: it sets the flag and registers the
    callback when the NATS client is there and accepts, and otherwise
    leaves the flag unset, registers nothing and reports the failure on
    the console. *)
Theorem subscription_state_machine this o calls st :
  heap st !! this = Some o ->
  natsSubscribed o = false ->
  subscriptions st = [] ->
  let st' := run this calls st in
  (length (subscriptions st') <= 1)%nat /\
  exists o', heap st' !! this = Some o' /\
    subscriptions st' = (if natsSubscribed o' then [this] else []) /\
    forall c e, subscribing c = true ->
      let st'' := perform this c e st' in
      exists o'', heap st'' !! this = Some o'' /\
        subscriptions st'' = (if natsSubscribed o'' then [this] else []) /\
        if natsSubscribed o' then
          natsSubscribed o'' = true /\ subscribe_calls st'' = subscribe_calls st'
        else if natsClient st' && negb (natsSubscribeFails e) then
          natsSubscribed o'' = true
        else
          natsSubscribed o'' = false /\
          exists l, log st'' = (log st' ++ l)%list /\
            In (ConsoleError "Failed to setup NATS subscription:") l.
Proof.
  intros Hh Hflag Hs st'.
  assert (Hinv : subscription_inv this (keyPrefix o) st').
  { apply run_inv. exists o. by rewrite Hflag. }
  destruct Hinv as (o' & Hh' & _ & Hs').
  split.
  - rewrite Hs'. destruct (natsSubscribed o'); simpl; lia.
  - exists o'. split; [done|]. split; [done|].
    intros c e Hc st''.
    destruct (perform_step this o' c e st' Hh' Hs') as (o'' & Hh'' & _ & Hs'' & Hcase).
    exists o''. split; [done|]. split; [done|]. by apply Hcase.
Qed.

(** ** The two representations of an entry *)

(** After a [set] that returned, the local tier holds the value and
    Redis holds its JSON text: the local tier answers with the value,
    and once the local entry is gone Redis answers with what
    [JSON.parse] makes of the text. *)
Lemma get_after_set this o key v text v' e1 e2 st st' :
  heap st !! this = Some o ->
  let fullKey := keyPrefix o +:+ ":" +:+ key in
  JSON_stringify v = Some text ->
  JSON_parse text = Some v' ->
  set this key v e1 st = (Return tt, st') ->
  redisGetFails e2 = false ->
  localCache st' !! fullKey = Some v /\
  redis st' !! fullKey = Some text /\
  (get this key e2 st').1 = Return v /\
  (get this key e2 (expire_local fullKey st')).1 = Return v'.
Proof.
  intros Hh fullKey Hs Hp Hset Hf.
  destruct (set_returns this o key v e1 st st' Hh Hset) as ([b Hh'] & Hl & Hr).
  fold fullKey in Hl, Hr. rewrite Hs in Hr. simpl in Hr.
  split; [by rewrite Hl, lookup_insert_eq|].
  split; [by rewrite Hr, lookup_insert_eq|].
  split.
  - apply (get_hit this _ key v e2 st' Hh'); simpl; fold fullKey.
    + by rewrite Hl, lookup_insert_eq.
    + intros ->. by rewrite JSON_stringify_undefined in Hs.
  - assert (Hh'' : heap (expire_local fullKey st') !! this
                   = Some (mkCacheService (keyPrefix o) b)) by done.
    apply (get_fallback this _ key text v' e2 _ Hh''); try done.
    + unfold local_miss, expire_local. simpl. fold fullKey.
      by rewrite lookup_delete_eq.
    + simpl. fold fullKey. by rewrite Hr, lookup_insert_eq.
Qed.

End Facts.

(** C10.  [set] keeps the value itself in the local tier and its JSON
    text in Redis, and there are values that the JSON text does not give
    back: an object with a property that is [undefined], and a [Date].
    For such a value [get] returns the value while the local tier holds
    it, and a different value (without the property; a string) once the
    local entry is gone and Redis answers. *)
Theorem tier_representation_divergence this o key e1 e2 st st' :
  heap st !! this = Some o ->
  redisGetFails e2 = false ->
  let fullKey := keyPrefix o +:+ ":" +:+ key in
  let movie := JObj [("title", JStr "X"); ("imdbId", JUndefined)] in
  let stored := JObj [("title", JStr "X")] in
  let date := JDate "2020-01-01T00:00:00.000Z" in
  (set this key movie e1 st = (Return tt, st') ->
     localCache st' !! fullKey = Some movie /\
     (exists text, redis st' !! fullKey = Some text /\ JSON_parse text = Some stored) /\
     (get this key e2 st').1 = Return movie /\
     (get this key e2 (expire_local fullKey st')).1 = Return stored /\
     movie <> stored) /\
  (set this key date e1 st = (Return tt, st') ->
     (get this key e2 st').1 = Return date /\
     (get this key e2 (expire_local fullKey st')).1
       = Return (JStr "2020-01-01T00:00:00.000Z") /\
     date <> JStr "2020-01-01T00:00:00.000Z").
Proof.
  intros Hh Hf fullKey movie stored date. split.
  - intros Hset.
    assert (Hjson : exists text,
      JSON_stringify movie = Some text /\ JSON_parse text = Some stored).
    { exists (default EmptyString (JSON_stringify movie)).
      split; vm_compute; reflexivity. }
    destruct Hjson as (text & Hs & Hp).
    destruct (get_after_set this o key movie text stored e1 e2 st st' Hh
                Hs Hp Hset Hf) as (Hl & Hr & Hhit & Hfb).
    split; [done|]. split; [eauto|]. split; [done|]. split; [done|].
    discriminate.
  - intros Hset.
    assert (Hjson : exists text,
      JSON_stringify date = Some text /\
      JSON_parse text = Some (JStr "2020-01-01T00:00:00.000Z")).
    { exists (default EmptyString (JSON_stringify date)).
      split; vm_compute; reflexivity. }
    destruct Hjson as (text & Hs & Hp).
    destruct (get_after_set this o key date text _ e1 e2 st st' Hh
                Hs Hp Hset Hf) as (_ & _ & Hhit & Hfb).
    split; [done|]. split; [done|]. discriminate.
Qed.

(** * Concrete runs *)

(** The process of the service: started with NATS connected, then
    [CacheService.getInstance("movie")], as [movie.service.ts] does when
    it is loaded.  The object is reference [0]. *)
Definition movie_process : state := (getInstance "movie" (fresh true)).2.

Definition movie_service : CacheService := mkCacheService "movie" false.

Definition redis_down : env := mkEnv true true true true false false.

Definition nats_down : env := mkEnv false false false false true true.

(** ** Inputs on which a property of the design document fails *)

(** C4 fails on an entry that is the empty text: [JSON.parse] rejects
    the empty text, and yet [get] returns [null], as for a key that is
    not there. *)
Lemma get_empty_entry_is_a_miss :
  let st := with_redis {["movie:k" := EmptyString]} movie_process in
  heap st !! 0%nat = Some movie_service /\
  local_miss st "movie:k" /\
  redis st !! "movie:k" = Some EmptyString /\
  JSON_parse EmptyString = None /\
  (get 0 "k" healthy st).1 = Return JNull.
Proof. vm_compute. repeat split; reflexivity. Qed.

(** C5 fails when Redis cannot be reached on a local miss: [get]
    throws. *)
Lemma get_throws_when_redis_is_down :
  heap movie_process !! 0%nat = Some movie_service /\
  local_miss movie_process "movie:k" /\
  redisGetFails redis_down = true /\
  (get 0 "k" redis_down movie_process).1 = Throw RedisConnectionError.
Proof. vm_compute. repeat split; reflexivity. Qed.



(** ** The theorems at concrete inputs *)

Definition local_holds (fullKey : string) (v : jsval) (st : state) : state :=
  with_localCache (<[fullKey := v]> (localCache st)) st.

Definition redis_holds (fullKey text : string) (st : state) : state :=
  with_redis (<[fullKey := text]> (redis st)) st.

Lemma get_read_through_witness :
  let hit := local_holds "movie:k" (JNum 7) movie_process in
  let shared := redis_holds "movie:k" "[1, 2]" movie_process in
  (localCache hit !! "movie:k" = Some (JNum 7) /\
   (get 0 "k" redis_down hit).1 = Return (JNum 7) /\
   tier_calls (get 0 "k" redis_down hit).2 = [LocalGet "movie:k"]) /\
  (local_miss shared "movie:k" /\
   redis shared !! "movie:k" = Some "[1, 2]" /\
   JSON_parse "[1, 2]" = Some (JArr [JNum 1; JNum 2]) /\
   (get 0 "k" healthy shared).1 = Return (JArr [JNum 1; JNum 2]) /\
   localCache (get 0 "k" healthy shared).2
     = <["movie:k" := JArr [JNum 1; JNum 2]]> ∅) /\
  (local_miss movie_process "movie:k" /\
   redis movie_process !! "movie:k" = None /\
   (get 0 "k" healthy movie_process).1 = Return JNull).
Proof.
  intros hit shared.
  destruct (get_read_through 0 movie_service "k" redis_down hit eq_refl)
    as (Hhit & _ & _).
  destruct (get_read_through 0 movie_service "k" healthy shared eq_refl)
    as (_ & Hfallback & _).
  destruct (get_read_through 0 movie_service "k" healthy movie_process eq_refl)
    as (_ & _ & Hmiss).
  split; [|split].
  - split; [reflexivity|].
    destruct (Hhit (JNum 7)) as (Hv & Hcalls & _);
      [reflexivity|discriminate|]. by split.
  - split; [reflexivity|]. split; [reflexivity|]. split; [reflexivity|].
    destruct (Hfallback "[1, 2]" (JArr [JNum 1; JNum 2]))
      as (Hv & _ & Hlocal & _); try reflexivity. by split.
  - split; [reflexivity|]. split; [reflexivity|].
    by destruct Hmiss as (Hv & _); try reflexivity.
Defined.

Lemma set_get_round_trip_witness :
  let movie := JObj [("title", JStr "X")] in
  let r := set 0 "movie-42" movie healthy movie_process in
  heap movie_process !! 0%nat = Some movie_service /\
  JSON_stringify movie <> None /\
  r.1 = Return tt /\
  (get 0 "movie-42" redis_down r.2).1 = Return movie.
Proof.
  intros movie r.
  split; [reflexivity|]. split; [discriminate|]. split; [reflexivity|].
  apply (set_get_round_trip 0 movie_service "movie-42" movie
           healthy redis_down movie_process r.2);
    [reflexivity|discriminate|reflexivity].
Defined.

Lemma getInstance_singleton_witness :
  instance (fresh true) = None /\
  (getInstances ["movie"; "director"; "movie"] (fresh true)).1 = [0; 0; 0]%nat /\
  heap (getInstances ["movie"; "director"; "movie"] (fresh true)).2
    = [mkCacheService "movie" false] /\
  (getKey 0 "k" healthy
     (getInstances ["movie"; "director"; "movie"] (fresh true)).2).1
    = Return "movie:k".
Proof.
  split; [reflexivity|].
  destruct (getInstance_singleton "movie" ["director"; "movie"] (fresh true) eq_refl)
    as (Hrefs & _ & Hheap & _ & Hkey).
  split; [exact Hrefs|]. split; [exact Hheap|]. exact (Hkey "k" healthy).
Defined.

(** An entry that is not JSON: the text [{] . *)
Lemma get_corrupt_entry_throws_witness :
  let st := redis_holds "movie:k" "{" movie_process in
  local_miss st "movie:k" /\
  redis st !! "movie:k" = Some "{" /\
  JSON_parse "{" = None /\
  (get 0 "k" healthy st).1 = Throw SyntaxError.
Proof.
  intros st.
  split; [reflexivity|]. split; [reflexivity|]. split; [reflexivity|].
  apply (get_corrupt_entry_throws 0 movie_service "k" "{" healthy st);
    try reflexivity. discriminate.
Defined.

Lemma get_degradation_witness :
  local_miss movie_process "movie:all-movies" /\
  redisGetFails redis_down = true /\
  (get 0 "all-movies" redis_down movie_process).1 = Throw RedisConnectionError /\
  (getAllMovies 0 (JArr [JStr "Alien"]) redis_down movie_process).1
    = Return (JArr [JStr "Alien"]) /\
  In (ConsoleError "Error getting from cache:")
     (log (getAllMovies 0 (JArr [JStr "Alien"]) redis_down movie_process).2) /\
  natsSubscribeFails nats_down = true /\
  (get 0 "all-movies" nats_down movie_process).1 = Return JNull /\
  (exists l, log (get 0 "all-movies" nats_down movie_process).2
             = (log movie_process ++ l)%list /\
     In (ConsoleError "Failed to setup NATS subscription:") l).
Proof.
  destruct (get_degradation 0 movie_service "all-movies" redis_down
              movie_process eq_refl) as (_ & _ & _ & Hthrows & Hcaller).
  destruct (get_degradation 0 movie_service "all-movies" nats_down
              movie_process eq_refl) as (_ & _ & Hsubscription & _).
  destruct (Hsubscription eq_refl (or_intror eq_refl))
    as (Hlogged & _ & _ & Hmiss).
  destruct (Hcaller (JArr [JStr "Alien"]) eq_refl eq_refl) as (Hfound & Hlog).
  split; [reflexivity|]. split; [reflexivity|].
  split; [by apply Hthrows|].
  split; [exact Hfound|]. split; [exact Hlog|].
  split; [reflexivity|].
  split; [by apply Hmiss|]. exact Hlogged.
Defined.

Lemma clearAllCaches_plain_namespace_witness :
  let st := redis_holds "director:d1" "3" movie_process in
  let r1 := set 0 "k1" (JNum 1) healthy st in
  let r2 := set 0 "k2" (JNum 2) healthy r1.2 in
  let r3 := clearAllCaches 0 healthy r2.2 in
  let r4 := get 0 "k1" healthy r3.2 in
  let r5 := get 0 "k2" healthy r4.2 in
  Glob.plain "movie" = true /\
  (clearAllCaches 0 healthy st).1 = Return tt /\
  log (clearAllCaches 0 healthy st).2 = [LocalFlushAll; RedisKeys "movie:*"] /\
  redis r3.2 !! "movie:k1" = None /\
  redis r3.2 !! "director:d1" = Some "3" /\
  r4.1 = Return JNull /\ r5.1 = Return JNull.
Proof.
  intros st r1 r2 r3 r4 r5.
  destruct (clearAllCaches_plain_namespace 0 movie_service st eq_refl eq_refl)
    as (_ & Hclear & Hgets).
  destruct (Hclear healthy eq_refl eq_refl) as (Hret & _ & _ & _ & _ & Hlog).
  destruct (Hgets "k1" (JNum 1) "k2" (JNum 2) healthy healthy healthy healthy
              healthy eq_refl eq_refl eq_refl eq_refl) as (H4 & H5).
  split; [reflexivity|]. split; [exact Hret|]. split; [exact Hlog|].
  split; [reflexivity|]. split; [reflexivity|]. by split.
Defined.

Lemma publishCacheClear_frame_witness :
  let st := local_holds "movie:k" (JNum 7) (redis_holds "movie:k" "7" movie_process) in
  let r := publishCacheClear 0 healthy st in
  r.1 = Return tt /\
  localCache r.2 !! "movie:k" = Some (JNum 7) /\
  redis r.2 !! "movie:k" = Some "7" /\
  tier_calls r.2 = [] /\
  inflight r.2 = 1%nat /\
  localCache (deliver healthy r.2).2 = ∅.
Proof.
  intros st r.
  destruct (publishCacheClear_frame 0 healthy st) as (Hl & Hr & Hcalls & Hsent).
  destruct (Hsent movie_service healthy eq_refl eq_refl eq_refl) as (Hret & Hin & Hflush).
  { by left. }
  subst r.
  split; [exact Hret|]. split; [by rewrite Hl|]. split; [by rewrite Hr|].
  split; [exact Hcalls|]. split; [exact Hin|]. exact Hflush.
Defined.

Lemma subscription_state_machine_witness :
  let calls :=
    [(CallGet "k", nats_down); (CallSet "k" (JNum 1), healthy);
     (CallPublishCacheClear, healthy); (Delivery, healthy);
     (CallGet "k", healthy)] in
  subscriptions movie_process = [] /\
  subscriptions (run 0 [(CallGet "k", nats_down)] movie_process) = [] /\
  subscriptions (run 0 calls movie_process) = [0%nat] /\
  (length (subscriptions (run 0 calls movie_process)) <= 1)%nat.
Proof.
  intros calls.
  destruct (subscription_state_machine 0 movie_service calls movie_process
              eq_refl eq_refl eq_refl) as (Hone & _).
  split; [reflexivity|]. split; [reflexivity|]. split; [reflexivity|].
  exact Hone.
Defined.


Lemma tier_representation_divergence_witness :
  let movie := JObj [("title", JStr "X"); ("imdbId", JUndefined)] in
  let r := set 0 "movie-42" movie healthy movie_process in
  r.1 = Return tt /\
  (get 0 "movie-42" healthy r.2).1 = Return movie /\
  (get 0 "movie-42" healthy (expire_local "movie:movie-42" r.2)).1
    = Return (JObj [("title", JStr "X")]).
Proof.
  intros movie r.
  destruct (tier_representation_divergence 0 movie_service "movie-42"
              healthy healthy movie_process r.2 eq_refl eq_refl) as (Hmovie & _).
  destruct (Hmovie eq_refl) as (_ & _ & Hlocal & Hshared & _).
  split; [reflexivity|]. split; [exact Hlocal|]. exact Hshared.
Defined.

(** * The rest of the service

    The functions around the cache that the properties above do not
    reach: the retry policy of the Redis client, the other methods of
    [MovieService], two methods of [MovieController] and the error
    middleware. *)

(** ** config/redis.ts: [retryStrategy] *)

(** [times] is the number of the reconnection attempt; the result is the
    delay in milliseconds before it, or [null] ([None]) to stop
    retrying. *)
Definition retryStrategy (times : Z) : option Z :=
  if times <=? 3 then Some (Z.min (times * 100) 3000) else None.

(** ** The [RegExp] constructor

    [new RegExp(pattern, flags)] belongs to the language: it throws a
    [SyntaxError] when the pattern is not a regular expression.
    [RegExp_compiles] tells the patterns that are one; the service is
    verified against this interface.  Two facts about the constructor
    are part of it: the empty pattern compiles, and a lone [*] does not
    (there is nothing to repeat). *)
Class RegExpSyntax : Type := {
  RegExp_compiles : string -> bool;
  RegExp_compiles_empty : RegExp_compiles EmptyString = true;
  RegExp_compiles_star : RegExp_compiles "*" = false
}.

(** An executable instance, used to run the service on concrete
    queries.  It is exact on the patterns without a character that is
    special in a regular expression, which all compile, and on [*]; it
    turns down every other pattern, although many of those compile. *)
Module Pattern.

Definition special (c : ascii) : bool :=
  match c with
  | "\"%char | "^"%char | "$"%char | "."%char | "|"%char | "?"%char
  | "*"%char | "+"%char | "("%char | ")"%char | "["%char | "]"%char
  | "{"%char | "}"%char => true
  | _ => false
  end.

Definition literal (pattern : string) : bool :=
  forallb (fun c => negb (special c)) (list_ascii_of_string pattern).

End Pattern.

#[export] Instance literal_patterns : RegExpSyntax :=
  {| RegExp_compiles := Pattern.literal;
     RegExp_compiles_empty := eq_refl;
     RegExp_compiles_star := eq_refl |}.

(** [new RegExp(pattern, "i")], for what it throws. *)
Definition new_RegExp `{RegExpSyntax} (pattern : string) : M unit :=
  fun _ st =>
    if RegExp_compiles pattern then (Return tt, st) else (Throw SyntaxError, st).

(** ** services/movie.service.ts: the other methods

    As in [getAllMovies], [cacheService] is the reference held by the
    module, and what the primary store answers is an argument: the saved
    document of [createMovie], the document or [null] of the queries by
    id, the list of the list queries. *)
Section MovieService.

Context `{codec : JsonCodec} `{regexp : RegExpSyntax}.

Definition createMovie (cacheService : nat) (savedMovie : jsval) : M jsval :=
  try_catch
    (publishCacheClear cacheService)
    (fun _ => console_error "Error clearing cache:") ;;
  ret savedMovie.

Definition getMovieById (cacheService : nat) (id : string) (found : jsval)
  : M jsval :=
  let cacheKey := "movie-" +:+ id in
  let* cached :=
    try_catch
      (let* cachedMovie := get cacheService cacheKey in
       if truthy cachedMovie then ret (Some cachedMovie) else ret None)
      (fun _ => console_error "Error getting from cache:" ;; ret None) in
  match cached with
  | Some cachedMovie => ret cachedMovie
  | None =>
      let movie := found in
      (if truthy movie then
         try_catch
           (set cacheService cacheKey movie)
           (fun _ => console_error "Error setting cache:")
       else ret tt) ;;
      ret movie
  end.

Definition updateMovie (cacheService : nat) (movie : jsval) : M jsval :=
  (if truthy movie then
     try_catch
       (publishCacheClear cacheService)
       (fun _ => console_error "Error clearing cache:")
   else ret tt) ;;
  ret movie.

Definition deleteMovie (cacheService : nat) (movie : jsval) : M jsval :=
  (if truthy movie then
     try_catch
       (publishCacheClear cacheService)
       (fun _ => console_error "Error clearing cache:")
   else ret tt) ;;
  ret movie.

Definition searchMovies (cacheService : nat) (query : string) (found : jsval)
  : M jsval :=
  let cacheKey := "search-" +:+ query in
  let* cached :=
    try_catch
      (let* cachedResults := get cacheService cacheKey in
       if truthy cachedResults then ret (Some cachedResults) else ret None)
      (fun _ => console_error "Error getting from cache:" ;; ret None) in
  match cached with
  | Some cachedResults => ret cachedResults
  | None =>
      new_RegExp query ;;
      let movies := found in
      try_catch
        (set cacheService cacheKey movies)
        (fun _ => console_error "Error setting cache:") ;;
      ret movies
  end.

Definition getMoviesByDirector (cacheService : nat) (directorId : string)
  (found : jsval) : M jsval :=
  let cacheKey := "director-movies-" +:+ directorId in
  let* cached :=
    try_catch
      (let* cachedMovies := get cacheService cacheKey in
       if truthy cachedMovies then ret (Some cachedMovies) else ret None)
      (fun _ => console_error "Error getting from cache:" ;; ret None) in
  match cached with
  | Some cachedMovies => ret cachedMovies
  | None =>
      let movies := found in
      try_catch
        (set cacheService cacheKey movies)
        (fun _ => console_error "Error setting cache:") ;;
      ret movies
  end.

Definition getMoviesByGenre (cacheService : nat) (genre : string)
  (found : jsval) : M jsval :=
  let cacheKey := "genre-movies-" +:+ genre in
  let* cached :=
    try_catch
      (let* cachedMovies := get cacheService cacheKey in
       if truthy cachedMovies then ret (Some cachedMovies) else ret None)
      (fun _ => console_error "Error getting from cache:" ;; ret None) in
  match cached with
  | Some cachedMovies => ret cachedMovies
  | None =>
      let movies := found in
      try_catch
        (set cacheService cacheKey movies)
        (fun _ => console_error "Error setting cache:") ;;
      ret movies
  end.

(** ** controllers/movie.controller.ts

    What a controller does with the request: it sends a response with a
    status and a JSON body, or hands an error to [next]. *)
Inductive reply : Type :=
| Respond (status : Z) (body : jsval)
| Next (err : error).

Definition MovieController_getAllMovies (cacheService : nat) (found : jsval)
  : M reply :=
  try_catch
    (let* movies := getAllMovies cacheService found in
     ret (Respond 200 (JObj [("success", JBool true); ("data", movies)])))
    (fun err => ret (Next err)).

Definition MovieController_getMovieById (cacheService : nat) (id : string)
  (found : jsval) : M reply :=
  try_catch
    (let* movie := getMovieById cacheService id found in
     if negb (truthy movie) then
       ret (Respond 404
              (JObj [("success", JBool false); ("message", JStr "Movie not found")]))
     else
       ret (Respond 200 (JObj [("success", JBool true); ("data", movie)])))
    (fun err => ret (Next err)).

(** [query] is [req.query.query], which need not be a string. *)
Definition MovieController_searchMovies (cacheService : nat) (query : jsval)
  (found : jsval) : M reply :=
  try_catch
    (match query with
     | JStr q =>
         let* movies := searchMovies cacheService q found in
         ret (Respond 200 (JObj [("success", JBool true); ("data", movies)]))
     | _ =>
         ret (Respond 400
                (JObj [("success", JBool false);
                       ("message", JStr "Search query is required")]))
     end)
    (fun err => ret (Next err)).

End MovieService.

(** ** middlewares/error.middleware.ts *)

(** The class of the error object, as far as [instanceof] tells: a
    Mongoose validation error carries, for each invalid field, its path
    and a message. *)
Inductive error_class : Type :=
| PlainError
| ValidationError (errors : list (string * string))
| CastError.

Record ApiError : Type := mkApiError {
  class_of : error_class;
  statusCode : option Z;
  message : string;
  stack : option string
}.

Record response : Type := mkResponse {
  status : Z;
  body : jsval
}.

(** [err.statusCode || 500] *)
Definition status_or_500 (c : option Z) : Z :=
  match c with
  | Some n => if n =? 0 then 500 else n
  | None => 500
  end.

(** [err.message || "Internal Server Error"] *)
Definition message_or_default (m : string) : string :=
  if truthy_text m then m else "Internal Server Error".

(** [NODE_ENV] is the value of [process.env.NODE_ENV]. *)
Definition errorHandler (NODE_ENV : option string) (err : ApiError) : response :=
  let statusCode := status_or_500 (statusCode err) in
  let message := message_or_default (message err) in
  match class_of err with
  | ValidationError errs =>
      let errors :=
        map (fun error => JObj [("field", JStr (fst error));
                                ("message", JStr (snd error))]) errs in
      mkResponse 400
        (JObj [("success", JBool false);
               ("message", JStr "Validation Error");
               ("errors", JArr errors)])
  | CastError =>
      mkResponse 400
        (JObj [("success", JBool false); ("message", JStr "Invalid ID format")])
  | PlainError =>
      mkResponse statusCode
        (JObj ([("success", JBool false); ("message", JStr message)] ++
               if bool_decide (NODE_ENV = Some "development")
               then [("stack", from_option JStr JUndefined (stack err))]
               else []))
  end.

(** The error [notFound] hands to [next]; [stack] is the stack trace the
    engine attached to it. *)
Definition notFound (originalUrl : string) (stack : option string) : ApiError :=
  mkApiError PlainError (Some 404) ("Not Found - " +:+ originalUrl) stack.

(** * Properties of the rest of the service *)

(** ** The retry policy *)

(** X1.  The Redis client retries three times and then gives up; the
    delay before attempt [times] is [100 * times] milliseconds, so the
    cap of 3000 is never the delay. *)
Theorem retryStrategy_schedule (times : Z) :
  (times <= 3 -> retryStrategy times = Some (100 * times)) /\
  (3 < times -> retryStrategy times = None) /\
  (forall delay, retryStrategy times = Some delay -> delay <= 300 /\ delay <> 3000).
Proof.
  unfold retryStrategy. split; [|split].
  - intros Hle. rewrite (proj2 (Z.leb_le times 3) Hle). f_equal. lia.
  - intros Hgt. by rewrite (proj2 (Z.leb_gt times 3) Hgt).
  - intros delay. destruct (times <=? 3) eqn:Hle; [|done].
    apply Z.leb_le in Hle. intros [= <-]. lia.
Qed.

(** ** Cache keys *)

Definition colon_free (s : string) : bool :=
  forallb (fun c => negb (Ascii.eqb c ":")) (list_ascii_of_string s).

Lemma append_inj_r (p a b : string) : p +:+ a = p +:+ b -> a = b.
Proof.
  induction p as [|c p IH]; simpl; [done|]. intros [= H]. by apply IH.
Qed.

Lemma colon_split (p1 p2 k1 k2 : string) :
  colon_free p1 = true -> colon_free p2 = true ->
  p1 +:+ ":" +:+ k1 = p2 +:+ ":" +:+ k2 ->
  p1 = p2 /\ k1 = k2.
Proof.
  unfold colon_free.
  revert p2. induction p1 as [|c p1 IH]; intros [|c2 p2]; simpl.
  - intros _ _ H. by simplify_eq/=.
  - intros _ Hc H. by simplify_eq/=.
  - intros Hc _ H. by simplify_eq/=.
  - intros [_ H1]%andb_true_iff [_ H2]%andb_true_iff H.
    injection H as -> H.
    by destruct (IH p2 H1 H2 H) as (-> & ->).
Qed.

Section ExtraFacts.

Context `{codec : JsonCodec} `{regexp : RegExpSyntax}.

Implicit Types (this : nat) (o : CacheService) (st : state) (e : env).

Lemma getKey_valid this o key e st :
  heap st !! this = Some o ->
  getKey this key e st = (Return (keyPrefix o +:+ ":" +:+ key), st).
Proof. intros Hh. unfold getKey, bind, deref. by rewrite Hh. Qed.

(** X2.  One cache object never maps two logical keys to the same
    full key. *)
Theorem getKey_injective this o k1 k2 e st :
  heap st !! this = Some o ->
  (getKey this k1 e st).1 = (getKey this k2 e st).1 ->
  k1 = k2.
Proof.
  intros Hh. rewrite !(getKey_valid this o) by done. simpl.
  intros [= H]. apply append_inj_r in H. by injection H.
Qed.

(** X3.  Two caches whose namespaces contain no colon never build the
    same full key unless both the namespace and the logical key are the
    same: their entries in a shared Redis do not collide. *)
Theorem getKey_namespaces_disjoint t1 t2 o1 o2 k1 k2 e1 e2 st1 st2 :
  heap st1 !! t1 = Some o1 ->
  heap st2 !! t2 = Some o2 ->
  colon_free (keyPrefix o1) = true ->
  colon_free (keyPrefix o2) = true ->
  (getKey t1 k1 e1 st1).1 = (getKey t2 k2 e2 st2).1 ->
  keyPrefix o1 = keyPrefix o2 /\ k1 = k2.
Proof.
  intros H1 H2 Hc1 Hc2.
  rewrite (getKey_valid t1 o1), (getKey_valid t2 o2) by done. simpl.
  intros [= H]. by apply colon_split.
Qed.

(** ** How the cache operations compose *)

Lemma set_other_key this o key data fullKey' e st :
  heap st !! this = Some o ->
  fullKey' <> keyPrefix o +:+ ":" +:+ key ->
  localCache (set this key data e st).2 !! fullKey' = localCache st !! fullKey'.
Proof.
  intros Hh Hne.
  destruct (set_unfold this o key data e st Hh)
    as (st1 & b & _ & _ & Hl & _ & _ & ->).
  unfold set_body, bind, redisClient_setex, localCache_set. simpl.
  destruct (redisSetexFails e); simpl; [by rewrite Hl|].
  destruct (CACHE_TTL st1 <=? 0); simpl; [by rewrite Hl|].
  by rewrite lookup_insert_ne, Hl.
Qed.

(** X4.  The last write wins: when two [set] on the same key have
    returned, both tiers hold the second value (Redis its JSON text), and
    [get] returns it. *)
Theorem set_overwrites this o key v1 v2 e1 e2 e3 st st1 st2 :
  heap st !! this = Some o ->
  v2 <> JUndefined ->
  set this key v1 e1 st = (Return tt, st1) ->
  set this key v2 e2 st1 = (Return tt, st2) ->
  let fullKey := keyPrefix o +:+ ":" +:+ key in
  localCache st2 !! fullKey = Some v2 /\
  redis st2 !! fullKey = Some (toArg (JSON_stringify v2)) /\
  (get this key e3 st2).1 = Return v2.
Proof.
  intros Hh Hv Hset1 Hset2 fullKey.
  destruct (set_returns this o key v1 e1 st st1 Hh Hset1) as ([b1 Hh1] & _ & _).
  destruct (set_returns this _ key v2 e2 st1 st2 Hh1 Hset2)
    as ([b2 Hh2] & Hl & Hr).
  simpl in Hl, Hr. fold fullKey in Hl, Hr.
  assert (Hlook : localCache st2 !! fullKey = Some v2)
    by (by rewrite Hl, lookup_insert_eq).
  split; [done|]. split; [by rewrite Hr, lookup_insert_eq|].
  by apply (get_hit this _ key v2 e3 st2 Hh2).
Qed.

(** X5.  A [set] on one key, whether it returns or throws, does not
    disturb another key: the value written before under a different
    logical key is still what [get] returns. *)
Theorem set_keeps_other_keys this o k1 k2 v1 v2 e1 e2 e3 st st1 :
  heap st !! this = Some o ->
  k1 <> k2 ->
  v1 <> JUndefined ->
  set this k1 v1 e1 st = (Return tt, st1) ->
  (get this k1 e3 (set this k2 v2 e2 st1).2).1 = Return v1.
Proof.
  intros Hh Hne Hv Hset1.
  destruct (set_returns this o k1 v1 e1 st st1 Hh Hset1) as ([b1 Hh1] & Hl & _).
  destruct (set_keeps_this this _ k2 v2 e2 st1 Hh1) as [b2 Hh2].
  simpl in Hh2.
  apply (get_hit this _ k1 v1 e3 _ Hh2); [|done]. simpl.
  rewrite (set_other_key this _ k2 v2 _ e2 st1 Hh1).
  - by rewrite Hl, lookup_insert_eq.
  - simpl. intros H. apply append_inj_r in H. by injection H.
Qed.

(** X6.  Once Redis has served a value, the local tier serves it: the
    [get] after a fallback returns the same value with the single call
    [localCache.get], even if Redis can no longer be reached. *)
Theorem get_backfill_serves_offline this o key text v e e' st :
  heap st !! this = Some o ->
  let fullKey := keyPrefix o +:+ ":" +:+ key in
  local_miss st fullKey ->
  redisGetFails e = false ->
  redis st !! fullKey = Some text ->
  JSON_parse text = Some v ->
  v <> JUndefined ->
  let r1 := get this key e st in
  let r2 := get this key e' r1.2 in
  r1.1 = Return v /\ r2.1 = Return v /\
  tier_calls r2.2 = (tier_calls r1.2 ++ [LocalGet fullKey])%list.
Proof.
  intros Hh fullKey Hmiss Hf Hr Hp Hv r1 r2.
  destruct (get_fallback this o key text v e st Hh Hmiss Hf Hr Hp)
    as (Hres & _ & Hl & _).
  destruct (get_keeps_this this o key e st Hh) as [b Hh1].
  fold r1 in Hres, Hl, Hh1.
  destruct (get_hit this _ key v e' r1.2 Hh1) as (Hres2 & Hcalls & _); try done.
  simpl. fold fullKey. by rewrite Hl, lookup_insert_eq.
Qed.

(** X18.  [undefined] does not survive the cache: when
    [set(k, undefined)] has returned, the local tier holds an entry for
    the key, and [get(k)] answers [null] from it with the single call
    [localCache.get], without asking Redis, whatever the network
    does. *)
Theorem get_after_set_undefined this o key e1 e2 st st' :
  heap st !! this = Some o ->
  set this key JUndefined e1 st = (Return tt, st') ->
  let fullKey := keyPrefix o +:+ ":" +:+ key in
  let r := get this key e2 st' in
  localCache st' !! fullKey = Some JUndefined /\
  r.1 = Return JNull /\
  tier_calls r.2 = (tier_calls st' ++ [LocalGet fullKey])%list.
Proof.
  intros Hh Hset fullKey r.
  destruct (set_returns this o key JUndefined e1 st st' Hh Hset)
    as ([b Hh'] & Hl & _).
  fold fullKey in Hl.
  assert (Hlook : localCache st' !! fullKey = Some JUndefined)
    by (by rewrite Hl, lookup_insert_eq).
  split; [done|].
  destruct (get_unfold this _ key e2 st' Hh')
    as (st1 & b' & _ & _ & Hl1 & _ & Ht & Hget).
  subst r. rewrite Hget. simpl. fold fullKey.
  unfold get_body, bind, localCache_get, ret. rewrite Hl1, Hlook. simpl.
  split; [done|].
  unfold tier_calls in *. simpl. rewrite List.filter_app. simpl.
  by rewrite Ht.
Qed.

(** X7.  A clear that Redis does not carry out is only half a clear:
    when the [KEYS] or the [DEL] command fails, [clearAllCaches] still
    returns and has emptied the local tier, but Redis keeps every entry,
    and the next [get] that Redis answers brings the entry back. *)
Theorem clearAllCaches_failed_keeps_redis this o e st :
  heap st !! this = Some o ->
  redisKeysFails e = true \/ redisDelFails e = true ->
  let r := clearAllCaches this e st in
  r.1 = Return tt /\
  localCache r.2 = ∅ /\
  redis r.2 = redis st /\
  (forall key text v e',
     redis st !! (keyPrefix o +:+ ":" +:+ key) = Some text ->
     JSON_parse text = Some v ->
     redisGetFails e' = false ->
     (get this key e' r.2).1 = Return v).
Proof.
  intros Hh Hfail r.
  destruct (clearAllCaches_returns this e st) as (Hret & Hheap & _).
  pose proof (clearAllCaches_flushes this e st) as Hflush.
  assert (Hredis : redis r.2 = redis st).
  { subst r.
    unfold clearAllCaches, try_catch, bind, localCache_flushAll, deref,
      redisClient_keys, redisClient_del, console_error, ret.
    simpl. rewrite Hh. simpl.
    destruct (redisKeysFails e) eqn:Hk; simpl; [done|].
    destruct Hfail as [?|Hd]; [done|].
    destruct (0 <? length _)%nat; simpl; [|done].
    by rewrite Hd. }
  fold r in Hret, Hheap, Hflush.
  split; [done|]. split; [done|]. split; [done|].
  intros key text v e' Hr Hp Hget.
  assert (Hh' : heap r.2 !! this = Some o) by (by rewrite Hheap).
  apply (get_fallback this o key text v e' r.2 Hh'); try done.
  - unfold local_miss. by rewrite Hflush.
  - by rewrite Hredis.
Qed.

(** ** The read-through methods of [MovieService] *)

(** The shape the list queries share: look in the cache, else take what
    the primary store found and try to cache it. *)
Definition read_through (cacheService : nat) (cacheKey : string) (found : jsval)
  : M jsval :=
  let* cached :=
    try_catch
      (let* cachedMovies := get cacheService cacheKey in
       if truthy cachedMovies then ret (Some cachedMovies) else ret None)
      (fun _ => console_error "Error getting from cache:" ;; ret None) in
  match cached with
  | Some cachedMovies => ret cachedMovies
  | None =>
      let movies := found in
      try_catch
        (set cacheService cacheKey movies)
        (fun _ => console_error "Error setting cache:") ;;
      ret movies
  end.

Lemma getMovieById_truthy cacheService id found :
  truthy found = true ->
  getMovieById cacheService id found
  = read_through cacheService ("movie-" +:+ id) found.
Proof. intros Ht. unfold getMovieById, read_through. by rewrite Ht. Qed.

Lemma get_body_frame fullKey e st :
  redis (get_body fullKey e st).2 = redis st /\
  CACHE_TTL (get_body fullKey e st).2 = CACHE_TTL st /\
  inflight (get_body fullKey e st).2 = inflight st.
Proof.
  unfold get_body, bind, localCache_get, redisClient_get, localCache_set,
    ret, throw. simpl.
  destruct (is_defined _); simpl; [done|].
  destruct (redisGetFails e); simpl; [done|].
  destruct (redis _ !! _) as [text|]; simpl; [|done].
  destruct (truthy_text text); simpl; [|done].
  by destruct (JSON_parse _).
Qed.

(** What [get] leaves as it was. *)
Lemma get_frame this o key e st :
  heap st !! this = Some o ->
  redis (get this key e st).2 = redis st /\
  CACHE_TTL (get this key e st).2 = CACHE_TTL st.
Proof.
  intros Hh.
  destruct (setup_frame this o e st Hh)
    as (st1 & b & Hsetup & _ & _ & Hr & Ht & _).
  destruct (get_unfold this o key e st Hh)
    as (st1' & b' & Hsetup' & _ & _ & _ & _ & ->).
  rewrite Hsetup in Hsetup'. injection Hsetup' as <-.
  destruct (get_body_frame (keyPrefix o +:+ ":" +:+ key) e st1) as (-> & -> & _).
  done.
Qed.

(** A truthy value that [get] returned is in the local tier
    afterwards. *)
Lemma get_truthy_cached this o key c e st :
  heap st !! this = Some o ->
  (get this key e st).1 = Return c -> truthy c = true ->
  localCache (get this key e st).2 !! (keyPrefix o +:+ ":" +:+ key) = Some c.
Proof.
  intros Hh.
  destruct (get_unfold this o key e st Hh)
    as (st1 & b & _ & _ & _ & _ & _ & ->).
  unfold get_body, bind, localCache_get, redisClient_get, localCache_set,
    ret, throw. simpl.
  destruct (localCache st1 !! _) as [v|] eqn:Hl; simpl.
  - destruct v; simpl; intros [= <-]; done.
  - destruct (redisGetFails e); simpl; [done|].
    destruct (redis _ !! _) as [text|]; simpl; [|by intros [= <-]].
    destruct (truthy_text text); simpl; [|by intros [= <-]].
    destruct (JSON_parse _); simpl; [|done].
    intros [= ->] _. apply lookup_insert_eq.
Qed.

(** When Redis takes the write, [set] returns. *)
Lemma set_succeeds this o key data e st :
  heap st !! this = Some o ->
  redisSetexFails e = false -> 0 < CACHE_TTL st ->
  exists st', set this key data e st = (Return tt, st').
Proof.
  intros Hh Hf Httl.
  destruct (setup_frame this o e st Hh)
    as (st1 & b & Hsetup & _ & _ & _ & Ht & _).
  destruct (set_unfold this o key data e st Hh)
    as (st1' & b' & Hsetup' & _ & _ & _ & _ & ->).
  rewrite Hsetup in Hsetup'. injection Hsetup' as <-.
  unfold set_body, bind, redisClient_setex, localCache_set. simpl.
  rewrite Hf, Ht. rewrite (proj2 (Z.leb_gt _ _) Httl). eauto.
Qed.

Lemma truthy_defined (v : jsval) : truthy v = true -> v <> JUndefined.
Proof. by intros Ht ->. Qed.

(** A read-through call that returned a truthy value while Redis took
    writes has left that value in the local tier. *)
Lemma read_through_caches cacheService o cacheKey found m e st :
  heap st !! cacheService = Some o ->
  redisSetexFails e = false -> 0 < CACHE_TTL st ->
  (read_through cacheService cacheKey found e st).1 = Return m ->
  truthy m = true ->
  let st' := (read_through cacheService cacheKey found e st).2 in
  (exists b, heap st' !! cacheService = Some (mkCacheService (keyPrefix o) b)) /\
  localCache st' !! (keyPrefix o +:+ ":" +:+ cacheKey) = Some m.
Proof.
  intros Hh Hf Httl.
  pose proof (get_keeps_this cacheService o cacheKey e st Hh) as [b Hh1].
  pose proof (get_frame cacheService o cacheKey e st Hh) as (_ & Ht1).
  pose proof (get_truthy_cached cacheService o cacheKey) as Hcached.
  unfold read_through, bind, try_catch, console_error, ret.
  destruct (get cacheService cacheKey e st) as [[c|err] g] eqn:Hget;
    simpl in *.
  - destruct (truthy c) eqn:Hc; simpl.
    + intros [= ->] _. split; [eauto|].
      specialize (Hcached m e st Hh). rewrite Hget in Hcached. by apply Hcached.
    + destruct (set_succeeds cacheService _ cacheKey found e g Hh1 Hf)
        as [st' Hset]; [by rewrite Ht1|].
      rewrite Hset. simpl. intros [= ->] _.
      destruct (set_returns cacheService _ cacheKey m e g st' Hh1 Hset)
        as (Hh' & Hl & _).
      split; [done|]. simpl in Hl. by rewrite Hl, lookup_insert_eq.
  - set (g' := emit _ g).
    assert (Hh' : heap g' !! cacheService
                  = Some (mkCacheService (keyPrefix o) b)) by done.
    destruct (set_succeeds cacheService _ cacheKey found e g' Hh' Hf)
      as [st' Hset]; [by simpl; rewrite Ht1|].
    rewrite Hset. simpl. intros [= ->] _.
    destruct (set_returns cacheService _ cacheKey m e g' st' Hh' Hset)
      as (Hh'' & Hl & _).
    split; [done|]. simpl in Hl. by rewrite Hl, lookup_insert_eq.
Qed.

(** A read-through call that finds a truthy value in the local tier
    returns it. *)
Lemma read_through_hit cacheService o cacheKey found m e st :
  heap st !! cacheService = Some o ->
  localCache st !! (keyPrefix o +:+ ":" +:+ cacheKey) = Some m ->
  truthy m = true ->
  (read_through cacheService cacheKey found e st).1 = Return m.
Proof.
  intros Hh Hl Ht.
  destruct (get_hit cacheService o cacheKey m e st Hh Hl (truthy_defined m Ht))
    as (Hres & _).
  unfold read_through, bind, try_catch, console_error, ret.
  destruct (get cacheService cacheKey e st) as [res g]. simpl in Hres.
  subst res. by rewrite Ht.
Qed.

(** A read-through call whose [get] returned a falsy value returns what
    the primary store found. *)
Lemma read_through_falsy cacheService cacheKey found c e st :
  (get cacheService cacheKey e st).1 = Return c -> truthy c = false ->
  (read_through cacheService cacheKey found e st).1 = Return found.
Proof.
  intros Hget Hc.
  unfold read_through, bind, try_catch, console_error, ret.
  destruct (get cacheService cacheKey e st) as [res g]. simpl in Hget.
  subst res. rewrite Hc.
  by destruct (set cacheService cacheKey found e g) as [[[]|err] st2].
Qed.

Lemma read_through_twice cacheService o cacheKey found1 found2 m e1 e2 st :
  heap st !! cacheService = Some o ->
  redisSetexFails e1 = false -> 0 < CACHE_TTL st ->
  (read_through cacheService cacheKey found1 e1 st).1 = Return m ->
  truthy m = true ->
  (read_through cacheService cacheKey found2 e2
     (read_through cacheService cacheKey found1 e1 st).2).1 = Return m.
Proof.
  intros Hh Hf Httl Hres Ht.
  destruct (read_through_caches cacheService o cacheKey found1 m e1 st
              Hh Hf Httl Hres Ht) as ([b Hh'] & Hl).
  by apply (read_through_hit cacheService _ cacheKey found2 m e2 _ Hh').
Qed.

(** [searchMovies] differs from the other list queries by the regular
    expression it builds from the query after a cache miss. *)
Lemma searchMovies_compiles cacheService query found :
  RegExp_compiles query = true ->
  searchMovies cacheService query found
  = read_through cacheService ("search-" +:+ query) found.
Proof.
  intros Hc. unfold searchMovies, read_through, new_RegExp.
  rewrite Hc. reflexivity.
Qed.

Lemma searchMovies_cases cacheService query found e st :
  let g := get cacheService ("search-" +:+ query) e st in
  (forall c, g.1 = Return c -> truthy c = true ->
     searchMovies cacheService query found e st = (Return c, g.2)) /\
  (RegExp_compiles query = false ->
   (forall c, g.1 = Return c -> truthy c = false) ->
     (searchMovies cacheService query found e st).1 = Throw SyntaxError).
Proof.
  intros g. subst g.
  unfold searchMovies, new_RegExp, bind, try_catch, console_error, ret.
  destruct (get cacheService ("search-" +:+ query) e st) as [[c|err] g2];
    simpl.
  - split.
    + intros c' [= <-] Hc. by rewrite Hc.
    + intros Hq Hall. rewrite (Hall c eq_refl). simpl. by rewrite Hq.
  - split; [done|]. intros Hq _. by rewrite Hq.
Qed.

(** X8.  What a read returned is what the next read returns: when a
    read-through method has returned a truthy value [m] (a list always
    is) while Redis took writes, the same call made again returns [m]
    from the cache, whatever the primary store would answer now and
    whatever the network does. *)
Theorem reads_are_cached cacheService o found1 found2 m e1 e2 st :
  heap st !! cacheService = Some o ->
  redisSetexFails e1 = false ->
  0 < CACHE_TTL st ->
  truthy m = true ->
  ((getAllMovies cacheService found1 e1 st).1 = Return m ->
   (getAllMovies cacheService found2 e2
      (getAllMovies cacheService found1 e1 st).2).1 = Return m) /\
  (forall id,
     (getMovieById cacheService id found1 e1 st).1 = Return m ->
     (getMovieById cacheService id found2 e2
        (getMovieById cacheService id found1 e1 st).2).1 = Return m) /\
  (forall query,
     (searchMovies cacheService query found1 e1 st).1 = Return m ->
     (searchMovies cacheService query found2 e2
        (searchMovies cacheService query found1 e1 st).2).1 = Return m) /\
  (forall directorId,
     (getMoviesByDirector cacheService directorId found1 e1 st).1 = Return m ->
     (getMoviesByDirector cacheService directorId found2 e2
        (getMoviesByDirector cacheService directorId found1 e1 st).2).1 = Return m) /\
  (forall genre,
     (getMoviesByGenre cacheService genre found1 e1 st).1 = Return m ->
     (getMoviesByGenre cacheService genre found2 e2
        (getMoviesByGenre cacheService genre found1 e1 st).2).1 = Return m).
Proof.
  intros Hh Hf Httl Ht.
  split; [|split; [|split; [|split]]].
  - intros Hres. by apply (read_through_twice cacheService o "all-movies").
  - intros id Hres.
    assert (Hlocal :
      (exists b, heap (getMovieById cacheService id found1 e1 st).2 !! cacheService
                 = Some (mkCacheService (keyPrefix o) b)) /\
      localCache (getMovieById cacheService id found1 e1 st).2
        !! (keyPrefix o +:+ ":" +:+ ("movie-" +:+ id)) = Some m).
    { destruct (truthy found1) eqn:Hfound.
      - rewrite getMovieById_truthy in * by done.
        by apply (read_through_caches cacheService o _ found1 m e1 st).
      - pose proof (get_keeps_this cacheService o ("movie-" +:+ id) e1 st Hh)
          as [b Hh1].
        pose proof (get_truthy_cached cacheService o ("movie-" +:+ id)) as Hcached.
        specialize (Hcached m e1 st Hh).
        revert Hres.
        unfold getMovieById, bind, try_catch, console_error, ret.
        destruct (get cacheService ("movie-" +:+ id) e1 st) as [[c|err] g];
          simpl in *.
        + destruct (truthy c) eqn:Hc; simpl.
          * intros [= ->]. split; [eauto|]. by apply Hcached.
          * rewrite Hfound. simpl. intros [= ->]. congruence.
        + rewrite Hfound. simpl. intros [= ->]. congruence. }
    destruct Hlocal as ([b Hh'] & Hl).
    destruct (get_hit cacheService _ ("movie-" +:+ id) m e2 _ Hh' Hl
                (truthy_defined m Ht)) as (Hget & _).
    unfold getMovieById at 1. unfold bind, try_catch, console_error, ret.
    destruct (get cacheService ("movie-" +:+ id) e2 _) as [res g].
    simpl in Hget. subst res. by rewrite Ht.
  - intros query Hres.
    destruct (RegExp_compiles query) eqn:Hq.
    { rewrite !searchMovies_compiles in * by done.
      by apply (read_through_twice cacheService o ("search-" +:+ query)). }
    destruct (searchMovies_cases cacheService query found1 e1 st)
      as (Hcached & Hthrows).
    pose proof (get_keeps_this cacheService o ("search-" +:+ query) e1 st Hh)
      as [b Hh1].
    pose proof (get_truthy_cached cacheService o ("search-" +:+ query)
                  m e1 st Hh) as Hlocal.
    destruct (get cacheService ("search-" +:+ query) e1 st) as [[c|err] g]
      eqn:Hget; simpl in *.
    + destruct (truthy c) eqn:Hc.
      * rewrite (Hcached c eq_refl Hc) in *. simpl in *.
        injection Hres as ->.
        destruct (searchMovies_cases cacheService query found2 e2 g)
          as (Hcached2 & _).
        destruct (get_hit cacheService _ ("search-" +:+ query) m e2 g Hh1
                    (Hlocal eq_refl Ht) (truthy_defined m Ht)) as (Hget2 & _).
        by rewrite (Hcached2 m Hget2 Ht).
      * rewrite Hthrows in Hres; [done|done|].
        by intros c' [= <-].
    + by rewrite Hthrows in Hres.
  - intros directorId Hres.
    by apply (read_through_twice cacheService o ("director-movies-" +:+ directorId)).
  - intros genre Hres.
    by apply (read_through_twice cacheService o ("genre-movies-" +:+ genre)).
Qed.

(** X9.  A movie that the primary store does not have is not cached:
    when the query by id finds nothing ([null], or any falsy answer),
    [getMovieById] makes no call on either tier beyond those of its
    [get], leaves both tiers as that [get] left them, and returns the
    answer of the primary store unless the cache held a truthy value. *)
Theorem getMovieById_absent_not_cached cacheService o id found e st :
  heap st !! cacheService = Some o ->
  truthy found = false ->
  let g := get cacheService ("movie-" +:+ id) e st in
  let r := getMovieById cacheService id found e st in
  tier_calls r.2 = tier_calls g.2 /\
  localCache r.2 = localCache g.2 /\
  redis r.2 = redis st /\
  (forall c, g.1 = Return c -> truthy c = true -> r.1 = Return c) /\
  ((forall c, g.1 = Return c -> truthy c = false) -> r.1 = Return found).
Proof.
  intros Hh Hfound g r.
  pose proof (get_frame cacheService o ("movie-" +:+ id) e st Hh) as (Hr & _).
  subst r. fold g in Hr.
  unfold getMovieById, bind, try_catch, console_error, ret. fold g.
  destruct g as [[c|err] g2]; simpl in *.
  - destruct (truthy c) eqn:Hc; simpl.
    + split; [done|]. split; [done|]. split; [done|]. split.
      * by intros c' [= <-].
      * intros Hall. specialize (Hall c eq_refl). congruence.
    + rewrite Hfound. simpl.
      split; [done|]. split; [done|]. split; [done|]. split; [|done].
      intros c' [= <-]. congruence.
  - rewrite Hfound. simpl.
    split; [|split; [done|split; [done|split; [done|done]]]].
    unfold tier_calls. simpl. rewrite List.filter_app. simpl.
    by rewrite app_nil_r.
Qed.

(** ** The write methods of [MovieService] *)

(** [try { await cacheService.publishCacheClear(); } catch ...] *)
Definition invalidate (cacheService : nat) : M unit :=
  try_catch
    (publishCacheClear cacheService)
    (fun _ => console_error "Error clearing cache:").

Lemma publish_body_TTL e st : CACHE_TTL (publish_body e st).2 = CACHE_TTL st.
Proof.
  unfold publish_body, try_catch, bind, getNatsClient, nats_publish,
    console_error.
  destruct (natsClient st); simpl; [|done].
  by destruct (natsPublishFails e).
Qed.

Lemma invalidate_frame cacheService e st :
  let r := invalidate cacheService e st in
  r.1 = Return tt /\
  localCache r.2 = localCache st /\
  redis r.2 = redis st /\
  tier_calls r.2 = tier_calls st /\
  CACHE_TTL r.2 = CACHE_TTL st /\
  (forall o, heap st !! cacheService = Some o ->
     exists b, heap r.2 !! cacheService = Some (mkCacheService (keyPrefix o) b)).
Proof.
  intros r. subst r. unfold invalidate, try_catch.
  destruct (heap st !! cacheService) as [o|] eqn:Hh.
  - destruct (setup_frame cacheService o e st Hh)
      as (st1 & b & Hsetup & Hh1 & Hl & Hr & Httl & _ & _ & _ & Ht).
    assert (Heq : publishCacheClear cacheService e st = publish_body e st1).
    { unfold publishCacheClear, bind at 1. by rewrite Hsetup. }
    rewrite Heq.
    destruct (publish_body_frame e st1) as (Hret & Hh' & _ & Hl' & Hr' & Ht').
    pose proof (publish_body_TTL e st1) as Httl'.
    destruct (publish_body e st1) as [res st2]. simpl in *. subst res.
    simpl. rewrite Hl', Hr', Ht', Httl', Hh'.
    repeat split; try done. intros o' [= <-]. eauto.
  - unfold publishCacheClear, setupNatsSubscription, bind, deref, console_error.
    rewrite Hh. simpl. repeat split; try done.
    unfold tier_calls. simpl. rewrite List.filter_app. simpl.
    by rewrite app_nil_r.
Qed.

(** X10.  The three write methods return what the primary store
    returned, whatever Redis and NATS do, and change neither tier
    themselves; [updateMovie] and [deleteMovie] on a movie that does not
    exist do nothing at all (no signal is published). *)
Theorem writes_return_and_keep_tiers cacheService movie e st :
  let c := createMovie cacheService movie e st in
  let u := updateMovie cacheService movie e st in
  let d := deleteMovie cacheService movie e st in
  (c.1 = Return movie /\ localCache c.2 = localCache st /\
   redis c.2 = redis st /\ tier_calls c.2 = tier_calls st) /\
  (u.1 = Return movie /\ localCache u.2 = localCache st /\
   redis u.2 = redis st /\ tier_calls u.2 = tier_calls st) /\
  (d.1 = Return movie /\ localCache d.2 = localCache st /\
   redis d.2 = redis st /\ tier_calls d.2 = tier_calls st) /\
  (truthy movie = false -> u.2 = st /\ d.2 = st).
Proof.
  intros c u d. subst c u d.
  destruct (invalidate_frame cacheService e st) as (Hret & Hl & Hr & Ht & _).
  unfold createMovie, updateMovie, deleteMovie, bind, ret.
  destruct (truthy movie); simpl; fold (invalidate cacheService);
    destruct (invalidate cacheService e st) as [res st1]; simpl in *;
    subst res; repeat split; done.
Qed.

(** X11.  Until the clear signal is delivered, reads are stale: after
    any of the three writes has returned, [getAllMovies] still returns
    the list that is in the local tier, not what the primary store now
    holds. *)
Theorem reads_stale_until_delivery cacheService o m saved found e1 e2 st :
  heap st !! cacheService = Some o ->
  localCache st !! (keyPrefix o +:+ ":" +:+ "all-movies") = Some m ->
  truthy m = true ->
  (getAllMovies cacheService found e2
     (createMovie cacheService saved e1 st).2).1 = Return m /\
  (getAllMovies cacheService found e2
     (updateMovie cacheService saved e1 st).2).1 = Return m /\
  (getAllMovies cacheService found e2
     (deleteMovie cacheService saved e1 st).2).1 = Return m.
Proof.
  intros Hh Hl Ht.
  destruct (invalidate_frame cacheService e1 st) as (Hret & Hl' & _ & _ & _ & Hh').
  destruct (Hh' o Hh) as [b Hh1].
  assert (Hcreate : (createMovie cacheService saved e1 st).2
                    = (invalidate cacheService e1 st).2).
  { unfold createMovie, bind, ret. fold (invalidate cacheService).
    by destruct (invalidate cacheService e1 st) as [[[]|err] st1]. }
  assert (Hwrite : forall s, s = (invalidate cacheService e1 st).2 \/ s = st ->
    (getAllMovies cacheService found e2 s).1 = Return m).
  { intros s [-> | ->].
    - apply (read_through_hit cacheService _ "all-movies" found m e2 _ Hh1);
        [|done]. simpl. by rewrite Hl'.
    - by apply (read_through_hit cacheService o "all-movies" found m e2 st). }
  split; [apply Hwrite; by left|].
  assert (Hupdate : (updateMovie cacheService saved e1 st).2
                    = (invalidate cacheService e1 st).2
                    \/ (updateMovie cacheService saved e1 st).2 = st).
  { unfold updateMovie, bind, ret. fold (invalidate cacheService).
    destruct (truthy saved); simpl; [left|by right].
    by destruct (invalidate cacheService e1 st) as [[[]|err] st1]. }
  split; apply Hwrite; [done|].
  unfold deleteMovie. exact Hupdate.
Qed.

(** When NATS works, [publishCacheClear] leaves exactly one callback
    registered and one more signal on its way. *)
Lemma publish_succeeds this o e st :
  heap st !! this = Some o ->
  subscriptions st = (if natsSubscribed o then [this] else []) ->
  natsClient st = true ->
  natsSubscribeFails e = false -> natsPublishFails e = false ->
  exists st',
    publishCacheClear this e st = (Return tt, st') /\
    heap st' !! this = Some (mkCacheService (keyPrefix o) true) /\
    subscriptions st' = [this] /\
    inflight st' = S (inflight st) /\
    localCache st' = localCache st /\
    redis st' = redis st /\
    CACHE_TTL st' = CACHE_TTL st.
Proof.
  intros Hh Hs Hc Hsub Hpub.
  unfold publishCacheClear, bind at 1.
  destruct o as [p flag]; simpl in *. destruct flag.
  - rewrite (setup_subscribed _ _ _ _ Hh eq_refl).
    fold publish_body. rewrite (publish_body_sends e st Hc Hpub).
    eexists. split; [done|]. simpl. by rewrite Hs.
  - rewrite (setup_registers _ _ _ _ Hh eq_refl Hc Hsub).
    fold publish_body. rewrite publish_body_sends by done.
    eexists. split; [done|]. simpl.
    rewrite list_lookup_insert_eq by (by eapply lookup_lt_Some).
    by rewrite Hs.
Qed.

(** X12.  Invalidation end to end: when NATS and Redis work, after
    [createMovie] and the delivery of its signal the cached list is gone
    from both tiers, and [getAllMovies] returns what the primary store
    holds now. *)
Theorem reads_fresh_after_delivery cacheService o saved found e1 e2 e3 st :
  heap st !! cacheService = Some o ->
  Glob.plain (keyPrefix o) = true ->
  subscriptions st = (if natsSubscribed o then [cacheService] else []) ->
  natsClient st = true ->
  natsSubscribeFails e1 = false -> natsPublishFails e1 = false ->
  redisKeysFails e2 = false -> redisDelFails e2 = false ->
  redisGetFails e3 = false ->
  let s1 := (createMovie cacheService saved e1 st).2 in
  let s2 := (deliver e2 s1).2 in
  let fullKey := keyPrefix o +:+ ":" +:+ "all-movies" in
  localCache s2 = ∅ /\
  redis s2 !! fullKey = None /\
  (getAllMovies cacheService found e3 s2).1 = Return found.
Proof.
  intros Hh Hplain Hs Hc Hsub Hpub Hk Hd Hg s1 s2 fullKey.
  destruct (publish_succeeds cacheService o e1 st Hh Hs Hc Hsub Hpub)
    as (st' & Hpublish & Hh1 & Hs1 & Hi1 & _).
  assert (Hs1' : s1 = st').
  { subst s1. unfold createMovie, bind, try_catch. by rewrite Hpublish. }
  assert (Hs2 : s2 = cleared (keyPrefix o +:+ ":*")
                       (with_inflight (inflight st) st')).
  { subst s2. rewrite Hs1'. unfold deliver. rewrite Hi1, Hs1.
    cbn [run_callbacks]. unfold bind.
    rewrite (clearAllCaches_answers cacheService
               (mkCacheService (keyPrefix o) true) e2) by done.
    done. }
  destruct (cleared_plain (keyPrefix o) (with_inflight (inflight st) st') Hplain)
    as (Hlocal & Hin & _).
  rewrite <- Hs2 in Hlocal, Hin.
  assert (Hh2 : heap s2 !! cacheService
                = Some (mkCacheService (keyPrefix o) true)).
  { rewrite Hs2. unfold cleared. by destruct (matching_keys _ _). }
  assert (Hnone : redis s2 !! fullKey = None) by (apply Hin; by eexists).
  split; [done|]. split; [done|].
  destruct (get_miss cacheService _ "all-movies" e3 s2 Hh2) as (Hget & _);
    try done.
  { unfold local_miss. by rewrite Hlocal. }
  by apply (read_through_falsy cacheService "all-movies" found JNull e3 s2).
Qed.

(** X13.  Without a NATS client the invalidation is lost: when
    [connectNATS] has not set the client, [createMovie] still returns the
    saved movie, reports the two failures on the console and publishes
    nothing; no delivery follows, and [getAllMovies] goes on returning
    the cached list. *)
Theorem invalidation_lost_without_nats cacheService o m saved found e1 e2 e3 st :
  heap st !! cacheService = Some o ->
  natsSubscribed o = false ->
  natsClient st = false ->
  inflight st = O ->
  localCache st !! (keyPrefix o +:+ ":" +:+ "all-movies") = Some m ->
  truthy m = true ->
  let c := createMovie cacheService saved e1 st in
  c = (Return saved,
       emit (ConsoleError "Error publishing cache clear event:")
         (emit (ConsoleError "Failed to setup NATS subscription:") st)) /\
  (deliver e2 c.2).2 = c.2 /\
  (getAllMovies cacheService found e3 (deliver e2 c.2).2).1 = Return m.
Proof.
  intros Hh Hflag Hc Hi Hl Ht c.
  assert (Hcreate : c = (Return saved,
       emit (ConsoleError "Error publishing cache clear event:")
         (emit (ConsoleError "Failed to setup NATS subscription:") st))).
  { subst c. unfold createMovie, bind at 1. unfold try_catch.
    unfold publishCacheClear, bind at 1.
    rewrite (setup_no_client _ _ _ _ Hh Hflag Hc).
    unfold try_catch, bind, getNatsClient, console_error, ret. simpl.
    by rewrite Hc. }
  rewrite Hcreate. simpl.
  assert (Hdeliver : forall s, inflight s = O -> (deliver e2 s).2 = s).
  { intros s Hs. unfold deliver. by rewrite Hs. }
  rewrite Hdeliver by done.
  split; [done|]. split; [done|].
  by apply (read_through_hit cacheService o "all-movies" found m e3).
Qed.

(** ** The controllers *)

Lemma read_through_returns cacheService cacheKey found e st :
  exists m, (read_through cacheService cacheKey found e st).1 = Return m.
Proof.
  unfold read_through, bind, try_catch, console_error, ret.
  destruct (get cacheService cacheKey e st) as [[v|err] st1]; simpl.
  - destruct (truthy v); simpl; [eauto|].
    destruct (set cacheService cacheKey found e st1) as [[[]|err] st2];
      simpl; eauto.
  - destruct (set cacheService cacheKey found e _) as [[[]|err2] st2];
      simpl; eauto.
Qed.

Lemma getMovieById_returns cacheService id found e st :
  exists movie, (getMovieById cacheService id found e st).1 = Return movie.
Proof.
  unfold getMovieById, bind, try_catch, console_error, ret.
  destruct (get cacheService ("movie-" +:+ id) e st) as [[v|err] st1]; simpl.
  - destruct (truthy v); simpl; [eauto|].
    destruct (truthy found); simpl; [|eauto].
    destruct (set cacheService ("movie-" +:+ id) found e st1)
      as [[[]|err] st2]; simpl; eauto.
  - destruct (truthy found); simpl; [|eauto].
    destruct (set cacheService ("movie-" +:+ id) found e _)
      as [[[]|err2] st2]; simpl; eauto.
Qed.

(** X14.  As long as the primary store answers, a failure of Redis or
    NATS never reaches the client: for every state and every network
    condition [getAllMovies] answers 200 and [getMovieById] answers 200
    with the movie the service returned, or 404 when that is falsy, and
    neither hands anything to [next].  [searchMovies] answers 400
    without touching the cache when the query is not a string; for a
    string it answers 200 when the cache holds a truthy result or the
    query compiles as a regular expression, and hands the [SyntaxError]
    of [new RegExp] to [next] when the query does not compile and the
    cache gave no truthy result. *)
Theorem controllers_respond cacheService found e st :
  (exists movies,
     (MovieController_getAllMovies cacheService found e st).1
     = Return (Respond 200 (JObj [("success", JBool true); ("data", movies)]))) /\
  (forall id, exists movie,
     (getMovieById cacheService id found e st).1 = Return movie /\
     (MovieController_getMovieById cacheService id found e st).1
     = Return
         (if truthy movie
          then Respond 200 (JObj [("success", JBool true); ("data", movie)])
          else Respond 404 (JObj [("success", JBool false);
                                  ("message", JStr "Movie not found")]))) /\
  (forall q, RegExp_compiles q = true ->
     exists movies,
       (MovieController_searchMovies cacheService (JStr q) found e st).1
       = Return (Respond 200 (JObj [("success", JBool true); ("data", movies)]))) /\
  (forall q c,
     (get cacheService ("search-" +:+ q) e st).1 = Return c -> truthy c = true ->
     (MovieController_searchMovies cacheService (JStr q) found e st).1
     = Return (Respond 200 (JObj [("success", JBool true); ("data", c)]))) /\
  (forall q, RegExp_compiles q = false ->
     (forall c, (get cacheService ("search-" +:+ q) e st).1 = Return c ->
                truthy c = false) ->
     (MovieController_searchMovies cacheService (JStr q) found e st).1
     = Return (Next SyntaxError)) /\
  (forall query, (forall q, query <> JStr q) ->
     MovieController_searchMovies cacheService query found e st
     = (Return (Respond 400 (JObj [("success", JBool false);
                                   ("message", JStr "Search query is required")])),
        st)).
Proof.
  split; [|split; [|split; [|split; [|split]]]].
  - destruct (getAllMovies_returns cacheService found e st) as [movies Hm].
    exists movies. unfold MovieController_getAllMovies, try_catch, bind, ret.
    destruct (getAllMovies cacheService found e st) as [res st1].
    simpl in Hm. by subst res.
  - intros id.
    destruct (getMovieById_returns cacheService id found e st) as [movie Hm].
    exists movie. split; [done|].
    unfold MovieController_getMovieById, try_catch, bind, ret.
    destruct (getMovieById cacheService id found e st) as [res st1].
    simpl in Hm. subst res. by destruct (truthy movie).
  - intros q Hq.
    destruct (read_through_returns cacheService ("search-" +:+ q) found e st)
      as [movies Hm].
    exists movies. unfold MovieController_searchMovies, try_catch, bind, ret.
    rewrite searchMovies_compiles by done.
    destruct (read_through cacheService ("search-" +:+ q) found e st)
      as [res st1].
    simpl in Hm. by subst res.
  - intros q c Hget Hc.
    destruct (searchMovies_cases cacheService q found e st) as (Hcached & _).
    unfold MovieController_searchMovies, try_catch, bind, ret.
    by rewrite (Hcached c Hget Hc).
  - intros q Hq Hmiss.
    destruct (searchMovies_cases cacheService q found e st) as (_ & Hthrows).
    specialize (Hthrows Hq Hmiss).
    unfold MovieController_searchMovies, try_catch, bind, ret.
    destruct (searchMovies cacheService q found e st) as [res st1].
    simpl in Hthrows. by subst res.
  - intros query Hq.
    unfold MovieController_searchMovies, try_catch, ret.
    destruct query; try done. by destruct (Hq s).
Qed.

End ExtraFacts.

(** Without the condition on the namespaces the keys can collide. *)
Example getKey_collision :
  let st := mkState None [mkCacheService "a" false; mkCacheService "a:b" false]
              3600 ∅ ∅ false [] 0 [] in
  (getKey 0 "b:c" healthy st).1 = (getKey 1 "c" healthy st).1.
Proof. reflexivity. Qed.

(** ** The error middleware *)

(** Whether a JSON body is an object with a property of that name. *)
Definition has_prop (name : string) (v : jsval) : bool :=
  match v with
  | JObj props => existsb (fun kv => String.eqb (fst kv) name) props
  | _ => false
  end.

(** X15.  Every error response says [success: false]; a validation or
    cast error is answered with status 400 whatever status code the
    error carries; and the stack trace is part of the body only in
    development, and only for an error of neither of those two
    classes. *)
Theorem errorHandler_body (NODE_ENV : option string) (err : ApiError) :
  (exists rest,
     body (errorHandler NODE_ENV err) = JObj (("success", JBool false) :: rest)) /\
  (class_of err <> PlainError -> status (errorHandler NODE_ENV err) = 400) /\
  (has_prop "stack" (body (errorHandler NODE_ENV err)) = true ->
   NODE_ENV = Some "development" /\ class_of err = PlainError).
Proof.
  unfold errorHandler.
  destruct (class_of err) as [|errs|]; simpl.
  - split; [eauto|]. split; [done|].
    case_bool_decide as Henv; simpl; [done|discriminate].
  - split; [eauto|]. split; [done|discriminate].
  - split; [eauto|]. split; [done|discriminate].
Qed.

(** X16.  A request for an unknown route, passed from [notFound] to
    [errorHandler], is answered with status 404 and a message that names
    the requested URL. *)
Theorem notFound_handled (NODE_ENV : option string) (url : string)
  (trace : option string) :
  status (errorHandler NODE_ENV (notFound url trace)) = 404 /\
  exists rest,
    body (errorHandler NODE_ENV (notFound url trace))
    = JObj (("success", JBool false)
            :: ("message", JStr ("Not Found - " +:+ url)) :: rest).
Proof.
  unfold errorHandler, notFound. simpl. split; [done|]. eauto.
Qed.

(** ** The properties at concrete inputs *)

Definition alien : jsval := JArr [JObj [("title", JStr "Alien")]].

Definition cached_list : state :=
  local_holds "movie:all-movies" alien movie_process.

Lemma retryStrategy_schedule_witness :
  2 <= 3 /\ retryStrategy 2 = Some 200 /\
  3 < 4 /\ retryStrategy 4 = None.
Proof.
  destruct (retryStrategy_schedule 2) as (Hdelay & _).
  destruct (retryStrategy_schedule 4) as (_ & Hstop & _).
  split; [lia|]. split; [apply Hdelay; lia|]. split; [lia|]. apply Hstop. lia.
Defined.

Lemma getKey_injective_witness :
  heap movie_process !! 0%nat = Some movie_service /\
  (getKey 0 "movie-1" healthy movie_process).1
    = (getKey 0 "movie-1" healthy movie_process).1 /\
  "movie-1" = "movie-1".
Proof.
  split; [reflexivity|]. split; [reflexivity|].
  apply (getKey_injective 0 movie_service "movie-1" "movie-1" healthy
           movie_process); reflexivity.
Defined.

Lemma getKey_namespaces_disjoint_witness :
  let other := (getInstance "movie" (fresh false)).2 in
  colon_free "movie" = true /\
  (getKey 0 "1" healthy movie_process).1 = (getKey 0 "1" redis_down other).1 /\
  keyPrefix movie_service = keyPrefix movie_service /\ "1" = "1".
Proof.
  intros other.
  split; [reflexivity|]. split; [reflexivity|].
  apply (getKey_namespaces_disjoint 0 0 movie_service movie_service "1" "1"
           healthy redis_down movie_process other); reflexivity.
Defined.

Lemma set_overwrites_witness :
  let r1 := set 0 "k" (JNum 1) healthy movie_process in
  let r2 := set 0 "k" (JNum 2) healthy r1.2 in
  r1.1 = Return tt /\ r2.1 = Return tt /\
  redis r2.2 !! "movie:k" = Some "2" /\
  (get 0 "k" redis_down r2.2).1 = Return (JNum 2).
Proof.
  intros r1 r2.
  destruct (set_overwrites 0 movie_service "k" (JNum 1) (JNum 2)
              healthy healthy redis_down movie_process r1.2 r2.2)
    as (_ & Hredis & Hget); [reflexivity|discriminate|reflexivity|reflexivity|].
  split; [reflexivity|]. split; [reflexivity|]. split; [exact Hredis|exact Hget].
Defined.

Lemma set_keeps_other_keys_witness :
  let r1 := set 0 "k1" (JNum 1) healthy movie_process in
  r1.1 = Return tt /\ "k1" <> "k2" /\
  (get 0 "k1" healthy (set 0 "k2" (JNum 2) redis_down r1.2).2).1
    = Return (JNum 1).
Proof.
  intros r1.
  split; [reflexivity|]. split; [discriminate|].
  apply (set_keeps_other_keys 0 movie_service "k1" "k2" (JNum 1) (JNum 2)
           healthy redis_down healthy movie_process r1.2);
    [reflexivity|discriminate|discriminate|reflexivity].
Defined.

Lemma get_backfill_serves_offline_witness :
  let st := redis_holds "movie:k" "[1, 2]" movie_process in
  let r1 := get 0 "k" healthy st in
  local_miss st "movie:k" /\
  r1.1 = Return (JArr [JNum 1; JNum 2]) /\
  (get 0 "k" redis_down r1.2).1 = Return (JArr [JNum 1; JNum 2]).
Proof.
  intros st r1.
  destruct (get_backfill_serves_offline 0 movie_service "k" "[1, 2]"
              (JArr [JNum 1; JNum 2]) healthy redis_down st)
    as (H1 & H2 & _); try reflexivity; [discriminate|].
  split; [reflexivity|]. split; [exact H1|exact H2].
Defined.

Lemma get_after_set_undefined_witness :
  let r := set 0 "k" JUndefined healthy movie_process in
  r.1 = Return tt /\
  localCache r.2 !! "movie:k" = Some JUndefined /\
  (get 0 "k" redis_down r.2).1 = Return JNull.
Proof.
  intros r.
  destruct (get_after_set_undefined 0 movie_service "k" healthy redis_down
              movie_process r.2 eq_refl eq_refl) as (Hlocal & Hget & _).
  split; [reflexivity|]. split; [exact Hlocal|exact Hget].
Defined.

Lemma clearAllCaches_failed_keeps_redis_witness :
  let st := local_holds "movie:k" (JNum 7) (redis_holds "movie:k" "7" movie_process) in
  let r := clearAllCaches 0 redis_down st in
  redisKeysFails redis_down = true /\
  r.1 = Return tt /\ localCache r.2 = ∅ /\
  redis r.2 !! "movie:k" = Some "7" /\
  (get 0 "k" healthy r.2).1 = Return (JNum 7).
Proof.
  intros st r.
  destruct (clearAllCaches_failed_keeps_redis 0 movie_service redis_down st
              eq_refl (or_introl eq_refl)) as (Hret & Hlocal & Hredis & Hget).
  subst r.
  split; [reflexivity|]. split; [exact Hret|]. split; [exact Hlocal|].
  split; [by rewrite Hredis|].
  apply (Hget "k" "7" (JNum 7) healthy); reflexivity.
Defined.

Lemma reads_are_cached_witness :
  let r1 := getAllMovies 0 alien healthy movie_process in
  0 < CACHE_TTL movie_process /\
  truthy alien = true /\
  r1.1 = Return alien /\
  (getAllMovies 0 (JArr []) redis_down r1.2).1 = Return alien.
Proof.
  intros r1.
  destruct (reads_are_cached 0 movie_service alien (JArr []) alien healthy
              redis_down movie_process eq_refl eq_refl eq_refl eq_refl)
    as (Hall & _).
  split; [reflexivity|]. split; [reflexivity|]. split; [reflexivity|].
  apply Hall. reflexivity.
Defined.

Lemma getMovieById_absent_not_cached_witness :
  let r := getMovieById 0 "42" JNull healthy movie_process in
  truthy JNull = false /\
  r.1 = Return JNull /\
  localCache r.2 = ∅ /\ redis r.2 = ∅.
Proof.
  intros r.
  destruct (getMovieById_absent_not_cached 0 movie_service "42" JNull healthy
              movie_process eq_refl eq_refl) as (_ & Hlocal & Hredis & _ & Hret).
  split; [reflexivity|]. split; [|split; [exact Hlocal|exact Hredis]].
  apply Hret. intros c [= <-]. reflexivity.
Defined.

Lemma writes_return_and_keep_tiers_witness :
  (createMovie 0 alien redis_down cached_list).1 = Return alien /\
  localCache (createMovie 0 alien nats_down cached_list).2 = localCache cached_list /\
  truthy JNull = false /\
  (updateMovie 0 JNull healthy cached_list).2 = cached_list.
Proof.
  destruct (writes_return_and_keep_tiers 0 alien redis_down cached_list)
    as ((Hret & _) & _).
  destruct (writes_return_and_keep_tiers 0 alien nats_down cached_list)
    as ((_ & Hlocal & _) & _).
  destruct (writes_return_and_keep_tiers 0 JNull healthy cached_list)
    as (_ & _ & _ & Hnothing).
  split; [exact Hret|]. split; [exact Hlocal|]. split; [reflexivity|].
  by destruct (Hnothing eq_refl).
Defined.

Lemma reads_stale_until_delivery_witness :
  localCache cached_list !! "movie:all-movies" = Some alien /\
  truthy alien = true /\
  (getAllMovies 0 (JArr []) healthy
     (createMovie 0 (JObj []) healthy cached_list).2).1 = Return alien.
Proof.
  destruct (reads_stale_until_delivery 0 movie_service alien (JObj []) (JArr [])
              healthy healthy cached_list eq_refl eq_refl eq_refl)
    as (Hcreate & _).
  split; [reflexivity|]. split; [reflexivity|]. exact Hcreate.
Defined.

Lemma reads_fresh_after_delivery_witness :
  let s1 := (createMovie 0 (JObj []) healthy cached_list).2 in
  let s2 := (deliver healthy s1).2 in
  Glob.plain "movie" = true /\
  natsClient cached_list = true /\
  subscriptions cached_list = [] /\
  localCache s2 = ∅ /\
  (getAllMovies 0 (JArr []) healthy s2).1 = Return (JArr []).
Proof.
  intros s1 s2.
  destruct (reads_fresh_after_delivery 0 movie_service (JObj []) (JArr [])
              healthy healthy healthy cached_list)
    as (Hlocal & _ & Hget); try reflexivity.
  split; [reflexivity|]. split; [reflexivity|]. split; [reflexivity|].
  split; [exact Hlocal|exact Hget].
Defined.

Lemma invalidation_lost_without_nats_witness :
  let st := local_holds "movie:all-movies" alien
              (getInstance "movie" (fresh false)).2 in
  let c := createMovie 0 (JObj []) healthy st in
  natsClient st = false /\ inflight st = O /\
  c.1 = Return (JObj []) /\
  (getAllMovies 0 (JArr []) healthy (deliver healthy c.2).2).1 = Return alien.
Proof.
  intros st c.
  destruct (invalidation_lost_without_nats 0 movie_service alien (JObj [])
              (JArr []) healthy healthy healthy st)
    as (Hc & _ & Hget); try reflexivity.
  split; [reflexivity|]. split; [reflexivity|].
  split; [|exact Hget]. fold c in Hc. by rewrite Hc.
Defined.

Lemma controllers_respond_witness :
  RegExp_compiles "alien" = true /\
  (exists movies,
     (MovieController_searchMovies 0 (JStr "alien") alien redis_down
        movie_process).1
     = Return (Respond 200 (JObj [("success", JBool true); ("data", movies)]))) /\
  RegExp_compiles "*" = false /\
  (MovieController_searchMovies 0 (JStr "*") alien healthy movie_process).1
    = Return (Next SyntaxError) /\
  (MovieController_searchMovies 0 (JNum 7) alien healthy movie_process).1
    = Return (Respond 400 (JObj [("success", JBool false);
                                 ("message", JStr "Search query is required")])).
Proof.
  destruct (controllers_respond 0 alien redis_down movie_process)
    as (_ & _ & Hcompiles & _).
  destruct (controllers_respond 0 alien healthy movie_process)
    as (_ & _ & _ & _ & Hnext & Hquery).
  split; [reflexivity|].
  split; [exact (Hcompiles "alien" eq_refl)|].
  split; [reflexivity|].
  split.
  - apply Hnext; [reflexivity|]. intros c [= <-]. reflexivity.
  - by rewrite (Hquery (JNum 7)).
Defined.

Lemma errorHandler_body_witness :
  let err := mkApiError PlainError None EmptyString (Some "at f (x.js:1)") in
  let invalid := mkApiError (ValidationError [("title", "required")])
                   (Some 500) "failed" None in
  has_prop "stack" (body (errorHandler (Some "development") err)) = true /\
  class_of invalid <> PlainError /\
  status (errorHandler (Some "production") invalid) = 400.
Proof.
  intros err invalid.
  destruct (errorHandler_body (Some "production") invalid) as (_ & Hstatus & _).
  destruct (errorHandler_body (Some "development") err) as (_ & _ & Hstack).
  destruct (Hstack eq_refl) as (_ & _).
  split; [reflexivity|]. split; [discriminate|]. apply Hstatus. discriminate.
Defined.
